(** * Soccer predictor: the rating accessor and the outcome predictor

    A shallow embedding of [src/main.py].

    - Python [float] values are embedded as real numbers [R]: [math.exp] is
      [exp], [math.log] is [ln], [abs] is [Rabs], [min] is [Rmin] and the
      arithmetic is exact.  Binary64 rounding of the individual operations
      is therefore outside the model; the range error of [math.exp] and the
      decimal rounding done by [round(x, ndigits)] are inside it.  The
      handler [predict] is written over the operations it uses, and the
      real numbers are one instance.
    - Python [int] values are embedded as [Z].
    - The global [db] handle is an [option]: [None] is "not configured".
      Only the collection [db["teamrating"]] matters here; it is a list of
      documents in natural order, so that duplicates and the "first match"
      behaviour of [find_one] are kept.
    - [raise HTTPException(code, detail)] is the right summand of [result].
    - [test_database], [ingest_match_link] and [upload_video] take what
      they use of their surroundings (the handle, the environment, the
      write to the store, the bytes of the file) as arguments. *)

From Stdlib Require Import Reals Lra Psatz ZArith List String Bool.
From Equations Require Import Equations.
Import ListNotations.

Local Open Scope string_scope.
Local Open Scope list_scope.
Local Open Scope R_scope.

(** ** Errors *)

Inductive HTTPException : Type :=
| mkHTTPException (status_code : Z) (detail : string).

Definition status_code_of (e : HTTPException) : Z :=
  match e with mkHTTPException c _ => c end.

Definition result (A : Type) : Type := (A + HTTPException)%type.

Definition Ok {A : Type} (a : A) : result A := inl a.
Definition raise {A : Type} (e : HTTPException) : result A := inr e.

(** The two failures raised by the handlers. *)
Definition StoreUnavailable : HTTPException :=
  mkHTTPException 500 "Database not configured".
Definition InvalidComputation : HTTPException :=
  mkHTTPException 400 "Invalid probabilities computed".

(** ** Data model *)

(** Modelled from the spec: the class [TeamRating] is declared in
    schemas.py, which is not among the sources at hand; section 3 gives
    [{ team_name: string, rating: float64 }]. *)
Record TeamRating : Type := mkTeamRating {
  team_name : string;
  rating : R
}.

(** Modelled from the spec: the class [PredictionRequest] of schemas.py;
    section 3 gives its six fields, which are the ones [predict] reads. *)
Record PredictionRequest : Type := mkPredictionRequest {
  home_team : string;
  away_team : string;
  home_score : Z;
  away_score : Z;
  minute : Z;
  is_neutral : bool
}.

(** Modelled from the spec: the class [PredictionResult] of schemas.py;
    section 3 gives its four fields, which are the ones [predict] fills. *)
Record PredictionResult (num : Type) : Type := mkPredictionResult {
  p_home : num;
  p_draw : num;
  p_away : num;
  effective_diff : num
}.

Arguments mkPredictionResult {num} _ _ _ _.
Arguments p_home {num} _.
Arguments p_draw {num} _.
Arguments p_away {num} _.
Arguments effective_diff {num} _.

(** A stored document of the collection "teamrating".  The field "rating"
    may be absent, which is what [existing.get("rating", 1500.0)] caters
    for. *)
Record document : Type := mkDocument {
  doc_id : nat;
  doc_team_name : string;
  doc_rating : option R
}.

Definition collection : Type := list document.

(** [db]: [None] when the store is not configured. *)
Definition database : Type := option collection.

(** ** The document store operations used by the handlers *)

(** [db["teamrating"].find_one({"team_name": name})]: the first document
    whose team name is [name]. *)
Definition find_one (name : string) (c : collection) : option document :=
  find (fun d => String.eqb (doc_team_name d) name) c.

(** [doc.get("rating", default)] followed by [float(...)]. *)
Definition get_rating (d : document) (default : R) : R :=
  match doc_rating d with
  | Some r => r
  | None => default
  end.

(** [{"$set": team.model_dump()}] applied to one document. *)
Definition set_fields (team : TeamRating) (d : document) : document :=
  {| doc_id := doc_id d;
     doc_team_name := team_name team;
     doc_rating := Some (rating team) |}.

(** [update_one({"_id": id}, {"$set": doc})]: the first document with
    that identifier is modified in place. *)
Fixpoint update_one (id : nat) (team : TeamRating) (c : collection)
  : collection :=
  match c with
  | [] => []
  | d :: c' =>
      if Nat.eqb (doc_id d) id then set_fields team d :: c'
      else d :: update_one id team c'
  end.

(** An identifier that no stored document carries. *)
Definition fresh_id (c : collection) : nat :=
  S (fold_right (fun d m => Nat.max (doc_id d) m) O c).

(** Modelled from the spec: [create_document] lives in database.py, which
    is not part of the sources at hand; section 4.2 says that upsert of an
    unknown team must "insert a new record".  The new document gets an
    unused identifier and goes to the end of the collection. *)
Definition create_document (team : TeamRating) (c : collection)
  : collection :=
  c ++ [ {| doc_id := fresh_id c;
            doc_team_name := team_name team;
            doc_rating := Some (rating team) |} ].

(** ** Rating accessor (main.py, lines 69-89) *)

(** [upsert_team_rating]: the answer (the value of the "status" key) and
    the store afterwards. *)
Definition upsert_team_rating (db : database) (team : TeamRating)
  : result string * database :=
  match db with
  | None => (raise StoreUnavailable, db)
  | Some c =>
      match find_one (team_name team) c with
      | Some existing =>
          (Ok "updated", Some (update_one (doc_id existing) team c))
      | None =>
          (Ok "created", Some (create_document team c))
      end
  end.

(** [get_team_rating]: the answer is the pair of the "team_name" and
    "rating" keys. *)
Definition get_team_rating (db : database) (name : string)
  : result (string * R) :=
  match db with
  | None => raise StoreUnavailable
  | Some c =>
      match find_one name c with
      | None => Ok (name, 1500)
      | Some existing => Ok (doc_team_name existing, get_rating existing 1500)
      end
  end.

(** ** Odds model (main.py, lines 61-66) *)

(** The value of [logistic(x)] when [math.exp] returns; the call itself,
    with the range error, is [logistic_with] below. *)
Definition logistic (x : R) : R := 1 / (1 + exp (- x)).

Definition HOME_ADVANTAGE : R := 60.
Definition GOAL_VALUE : R := 50.
Definition MINUTE_DECAY : R := 25 / 1000.

(** ** [round(x, ndigits)] on floats: nearest multiple of [10^-ndigits],
    ties to the even one. *)

Definition round_half_even (y : R) : Z :=
  let f := Int_part y in
  let r := y - IZR f in
  if Rlt_dec r (1 / 2) then f
  else if Rlt_dec (1 / 2) r then (f + 1)%Z
  else if Z.even f then f else (f + 1)%Z.

Definition py_round (x : R) (ndigits : nat) : R :=
  IZR (round_half_even (x * 10 ^ ndigits)) / 10 ^ ndigits.

(** ** Outcome predictor (main.py, lines 91-140) *)

(** Lines 94-100: the two ratings, with the default when the store is not
    configured or has no document for the team. *)
Definition fetch_ratings (db : database) (req : PredictionRequest) : R * R :=
  match db with
  | Some c =>
      let hdoc := find_one (home_team req) c in
      let adoc := find_one (away_team req) c in
      (match hdoc with Some d => get_rating d 1500 | None => 1500 end,
       match adoc with Some d => get_rating d 1500 | None => 1500 end)
  | None => (1500, 1500)
  end.

(** Lines 103-108: [diff]. *)
Definition rating_diff (r_home r_away : R) (req : PredictionRequest) : R :=
  let diff := r_home - r_away in
  let diff := if negb (is_neutral req) then diff + HOME_ADVANTAGE else diff in
  diff + IZR (home_score req - away_score req) * GOAL_VALUE.

(** Lines 110-111: the value of [effective_diff] before it is rounded,
    when line 110 returns. *)
Definition eff_diff (r_home r_away : R) (req : PredictionRequest) : R :=
  let diff := rating_diff r_home r_away req in
  let minute_factor := logistic (IZR (minute req - 45) * MINUTE_DECAY) in
  diff * (7 / 10 + 6 / 10 * minute_factor).

(** Line 118: [closeness]. *)
Definition closeness_of (ed : R) : R := exp (- Rabs ed / 200).

(** Line 119: [late_draw_boost]. *)
Definition late_draw_boost_of (req : PredictionRequest) : R :=
  1 / 10 + 2 / 10 * logistic (IZR (minute req - 60) * (5 / 100)).

(** Line 120: [p_draw] before normalisation. *)
Definition draw_prob (ed : R) (req : PredictionRequest) : R :=
  Rmin (55 / 100) (closeness_of ed * late_draw_boost_of req).

(** Lines 114-128: the values of the three probabilities before the
    division by [total], when the calls of [math.exp] return. *)
Definition unnormalized (ed : R) (req : PredictionRequest) : R * R * R :=
  let p_home_raw := logistic (ed / 400 * ln 10) in
  let p_away_raw := 1 - p_home_raw in
  let p_draw := draw_prob ed req in
  let scale := 1 - p_draw in
  (p_home_raw * scale, p_draw, p_away_raw * scale).

(** Line 128: [total]. *)
Definition total_of (t : R * R * R) : R :=
  let '(ph, pd, pa) := t in ph + pd + pa.

(** ** The handler over an arithmetic (main.py, lines 61-62 and 102-140)

    What [predict] does with numbers goes through the operations of Python
    floats.  The handler is written once over these operations, so that
    what is proved of its shape holds for binary64 as well, and then taken
    at the real numbers. *)

(** What a call inside [predict] can raise: the [HTTPException] of line
    130, or the [OverflowError] of [math.exp]. *)
Inductive py_exception : Type :=
| HTTPError (e : HTTPException)
| OverflowError.

Definition outcome (A : Type) : Type := (A + py_exception)%type.

Definition Return {A : Type} (a : A) : outcome A := inl a.
Definition Raise {A : Type} (e : py_exception) : outcome A := inr e.

Definition and_then {A B : Type} (m : outcome A) (k : A -> outcome B)
  : outcome B :=
  match m with
  | inl a => k a
  | inr e => inr e
  end.

Notation "x <~ m ;; k" := (and_then m (fun x => k))
  (at level 61, m at next level, right associativity).

(** The operations on floats that [predict] uses.  [lit m e] is the
    decimal literal with digits [m] and [e] digits after the point
    ([lit 25 3] is [0.025]); [of_int] is the conversion of an [int]
    operand; [math_exp] may raise. *)
Record arith : Type := mkArith {
  num : Type;
  add : num -> num -> num;
  sub : num -> num -> num;
  mul : num -> num -> num;
  div : num -> num -> num;
  neg : num -> num;
  absf : num -> num;
  minf : num -> num -> num;
  of_int : Z -> num;
  lit : Z -> nat -> num;
  math_exp : num -> outcome num;
  math_log : num -> num;
  le_zero : num -> bool;
  round_to : num -> nat -> num
}.

Section Handler.

Variable A : arith.

(** Lines 61-62. *)
Definition logistic_with (x : num A) : outcome (num A) :=
  e <~ math_exp A (neg A x) ;;
  Return (div A (lit A 10 1) (add A (lit A 10 1) e)).

(** Lines 103-108. *)
Definition rating_diff_with (r_home r_away : num A) (req : PredictionRequest)
  : num A :=
  let diff := sub A r_home r_away in
  let diff :=
    if negb (is_neutral req) then add A diff (lit A 600 1) else diff in
  add A diff
      (mul A (of_int A (home_score req - away_score req)) (lit A 500 1)).

(** Lines 110-111. *)
Definition eff_diff_with (r_home r_away : num A) (req : PredictionRequest)
  : outcome (num A) :=
  let diff := rating_diff_with r_home r_away req in
  minute_factor <~
    logistic_with (mul A (of_int A (minute req - 45)) (lit A 25 3)) ;;
  Return (mul A diff (add A (lit A 7 1) (mul A (lit A 6 1) minute_factor))).

(** Lines 114-125. *)
Definition unnormalized_with (ed : num A) (req : PredictionRequest)
  : outcome (num A * num A * num A) :=
  p_home_raw <~
    logistic_with (mul A (div A ed (lit A 4000 1))
                         (math_log A (of_int A 10))) ;;
  let p_away_raw := sub A (lit A 10 1) p_home_raw in
  closeness <~ math_exp A (div A (neg A (absf A ed)) (lit A 2000 1)) ;;
  l <~ logistic_with (mul A (of_int A (minute req - 60)) (lit A 5 2)) ;;
  let late_draw_boost := add A (lit A 1 1) (mul A (lit A 2 1) l) in
  let p_draw := minf A (lit A 55 2) (mul A closeness late_draw_boost) in
  let scale := sub A (lit A 10 1) p_draw in
  Return (mul A p_home_raw scale, p_draw, mul A p_away_raw scale).

(** Lines 128-133: the guard and the division, for any three values. *)
Definition normalize_with (t : num A * num A * num A)
  : outcome (num A * num A * num A) :=
  let '(ph, pd, pa) := t in
  let total := add A (add A ph pd) pa in
  if le_zero A total then Raise (HTTPError InvalidComputation)
  else Return (div A ph total, div A pd total, div A pa total).

(** Lines 102-133: the three probabilities and [effective_diff], before
    [round]. *)
Definition predict_core_with (r_home r_away : num A)
           (req : PredictionRequest)
  : outcome (num A * num A * num A * num A) :=
  ed <~ eff_diff_with r_home r_away req ;;
  t <~ unnormalized_with ed req ;;
  n <~ normalize_with t ;;
  Return (n, ed).

(** Lines 102-140. *)
Definition predict_with (r_home r_away : num A) (req : PredictionRequest)
  : outcome (PredictionResult (num A)) :=
  c <~ predict_core_with r_home r_away req ;;
  let '(ph, pd, pa, ed) := c in
  Return {| p_home := round_to A ph 4;
            p_draw := round_to A pd 4;
            p_away := round_to A pa 4;
            effective_diff := round_to A ed 2 |}.

(** The formula of the specification for the returned effective_diff:
    "round(((r_home - r_away) + (60.0 if not is_neutral else 0)
     + (home_score - away_score) * 50.0)
     * (0.7 + 0.6 * sigmoid((minute - 45) * 0.025)), 2)", where
    "sigmoid(x) = 1/(1+e^-x)". *)
Definition spec_sigmoid (x : num A) : outcome (num A) :=
  e <~ math_exp A (neg A x) ;;
  Return (div A (of_int A 1) (add A (of_int A 1) e)).

Definition spec_effective_diff (r_home r_away : num A)
           (req : PredictionRequest) : outcome (num A) :=
  s <~ spec_sigmoid (mul A (of_int A (minute req - 45)) (lit A 25 3)) ;;
  Return
    (round_to A
       (mul A
          (add A
             (add A (sub A r_home r_away)
                  (if negb (is_neutral req) then lit A 600 1
                   else of_int A 0))
             (mul A (of_int A (home_score req - away_score req))
                  (lit A 500 1)))
          (add A (lit A 7 1) (mul A (lit A 6 1) s)))
       2).

End Handler.

(** ** The handler at the real numbers *)

(** [math.exp] raises [OverflowError] when its result is not a finite
    binary64 number; 709.782712893384 is the largest argument for which
    it returns. *)
Definition EXP_MAX : R := 709782712893384 / 10 ^ 12.

Definition exp_checked (x : R) : outcome R :=
  if Rlt_dec EXP_MAX x then Raise OverflowError else Return (exp x).

(** Floats taken as real numbers: exact operations, [math.exp] with its
    range error, [round] to the nearest decimal with ties to even. *)
Definition R_arith : arith :=
  {| num := R;
     add := Rplus;
     sub := Rminus;
     mul := Rmult;
     div := Rdiv;
     neg := Ropp;
     absf := Rabs;
     minf := Rmin;
     of_int := IZR;
     lit := fun m e => IZR m / 10 ^ e;
     math_exp := exp_checked;
     math_log := ln;
     le_zero := fun x => if Rle_dec x 0 then true else false;
     round_to := py_round |}.

(** The whole handler. *)
Definition predict (db : database) (req : PredictionRequest)
  : outcome (PredictionResult R) :=
  let '(r_home, r_away) := fetch_ratings db req in
  predict_with R_arith r_home r_away req.

(** The values of [p_home], [p_draw], [p_away] just before [round]. *)
Definition predict_unrounded (db : database) (req : PredictionRequest)
  : outcome (R * R * R) :=
  let '(r_home, r_away) := fetch_ratings db req in
  c <~ predict_core_with R_arith r_home r_away req ;;
  Return (fst c).

(** The three calls of [math.exp] through [logistic] stay in range. *)
Definition exp_in_range (r_home r_away : R) (req : PredictionRequest)
  : Prop :=
  - (IZR (minute req - 45) * MINUTE_DECAY) <= EXP_MAX /\
  - (eff_diff r_home r_away req / 400 * ln 10) <= EXP_MAX /\
  - (IZR (minute req - 60) * (5 / 100)) <= EXP_MAX.

(** [effective_diff] of a request before it is rounded (lines 94-111). *)
Definition request_eff_diff (db : database) (req : PredictionRequest) : R :=
  let '(r_home, r_away) := fetch_ratings db req in
  eff_diff r_home r_away req.

(** ** The formulas as the specification words them *)

Definition sigmoid (x : R) : R := 1 / (1 + exp (- x)).

(** "min(0.55, exp(-|effective_diff|/200)
     * (0.1 + 0.2 * sigmoid((minute - 60) * 0.05)))" *)
Definition spec_p_draw (ed : R) (req : PredictionRequest) : R :=
  Rmin (55 / 100)
       (exp (- Rabs ed / 200)
        * (1 / 10 + 2 / 10 * sigmoid (IZR (minute req - 60) * (5 / 100)))).

(** Lines 114 and 123-124 once [min] has taken its second argument: the
    home share as a function of the boost and of the effective
    difference. *)
Definition home_share (b d : R) : R :=
  logistic (d / 400 * ln 10) * (1 - closeness_of d * b).

(** [n] successive calls of [upsert_team_rating] with the same body: the
    answers, in order. *)
Fixpoint upsert_repeatedly (n : nat) (db : database) (team : TeamRating)
  : list (result string) :=
  match n with
  | O => []
  | S n' =>
      let '(answer, db') := upsert_team_rating db team in
      answer :: upsert_repeatedly n' db' team
  end.


(** The request with another score. *)
Definition with_score (req : PredictionRequest) (hs aw : Z)
  : PredictionRequest :=
  {| home_team := home_team req;
     away_team := away_team req;
     home_score := hs;
     away_score := aw;
     minute := minute req;
     is_neutral := is_neutral req |}.

(** ** The rating accessor seen as a map *)

(** The rating that both [get_team_rating] (lines 86-89) and [predict]
    (lines 95-98) read off the store for a team. *)
Definition stored_rating (c : collection) (name : string) : R :=
  match find_one name c with
  | Some d => get_rating d 1500
  | None => 1500
  end.

(** The store never holds two documents with the same [_id]. *)
Definition ids_unique (c : collection) : Prop := NoDup (map doc_id c).

(** No team has two documents. *)
Definition names_unique (c : collection) : Prop :=
  NoDup (map doc_team_name c).

(** Successive calls of [upsert_team_rating], one per body, the answers
    dropped. *)
Definition upsert_all (ts : list TeamRating) (db : database) : database :=
  fold_left (fun db' t => snd (upsert_team_rating db' t)) ts db.

(** What a plain map from team names to ratings answers for [name] after
    the same writes, [before] being its answer at the start. *)
Definition last_written (ts : list TeamRating) (name : string) (before : R)
  : R :=
  fold_left
    (fun r t => if String.eqb (team_name t) name then rating t else r)
    ts before.

(** The request at another minute. *)
Definition with_minute (req : PredictionRequest) (m : Z)
  : PredictionRequest :=
  {| home_team := home_team req;
     away_team := away_team req;
     home_score := home_score req;
     away_score := away_score req;
     minute := m;
     is_neutral := is_neutral req |}.

(** ** Outcomes of calls that may raise any exception *)

(** [Raised msg]: the call raised an exception [e] with [str(e) = msg]. *)
Inductive py_outcome (A : Type) : Type :=
| Returned (a : A)
| Raised (msg : string).

Arguments Returned {A} a.
Arguments Raised {A} msg.

(** ** Diagnostics (main.py, lines 26-55) *)

(** What [test_database] uses of the handle [db]: the attribute [name]
    ([None] when [hasattr(db, 'name')] is false) and what
    [db.list_collection_names()] does. *)
Record db_handle : Type := mkDbHandle {
  db_name : option string;
  list_collection_names : py_outcome (list string)
}.

(** The dictionary [response]; the two keys that start as [None] are
    options. *)
Record test_response : Type := mkTestResponse {
  resp_backend : string;
  resp_database : string;
  resp_database_url : option string;
  resp_database_name : option string;
  resp_connection_status : string;
  resp_collections : list string
}.

Definition set_database (v : string) (r : test_response) : test_response :=
  {| resp_backend := resp_backend r;
     resp_database := v;
     resp_database_url := resp_database_url r;
     resp_database_name := resp_database_name r;
     resp_connection_status := resp_connection_status r;
     resp_collections := resp_collections r |}.

Definition set_database_url (v : string) (r : test_response)
  : test_response :=
  {| resp_backend := resp_backend r;
     resp_database := resp_database r;
     resp_database_url := Some v;
     resp_database_name := resp_database_name r;
     resp_connection_status := resp_connection_status r;
     resp_collections := resp_collections r |}.

Definition set_database_name (v : string) (r : test_response)
  : test_response :=
  {| resp_backend := resp_backend r;
     resp_database := resp_database r;
     resp_database_url := resp_database_url r;
     resp_database_name := Some v;
     resp_connection_status := resp_connection_status r;
     resp_collections := resp_collections r |}.

Definition set_connection_status (v : string) (r : test_response)
  : test_response :=
  {| resp_backend := resp_backend r;
     resp_database := resp_database r;
     resp_database_url := resp_database_url r;
     resp_database_name := resp_database_name r;
     resp_connection_status := v;
     resp_collections := resp_collections r |}.

Definition set_collections (v : list string) (r : test_response)
  : test_response :=
  {| resp_backend := resp_backend r;
     resp_database := resp_database r;
     resp_database_url := resp_database_url r;
     resp_database_name := resp_database_name r;
     resp_connection_status := resp_connection_status r;
     resp_collections := v |}.

(** [os.getenv(key)] used as a condition: unset and empty are false. *)
Definition env_truthy (v : option string) : bool :=
  match v with
  | Some s => negb (String.eqb s EmptyString)
  | None => false
  end.

(** [test_database], with the handle and the two environment variables
    made explicit.  Texts are byte strings, so [str(e)[:50]] is exact for
    messages in ASCII.  Nothing but [list_collection_names] raises in this
    model, so the outer [except] (lines 50-51) has no case here. *)
Definition test_database (db : option db_handle)
           (DATABASE_URL DATABASE_NAME : option string) : test_response :=
  let response :=
    {| resp_backend := "✅ Running";
       resp_database := "❌ Not Available";
       resp_database_url := None;
       resp_database_name := None;
       resp_connection_status := "Not Connected";
       resp_collections := [] |} in
  let response :=
    match db with
    | Some h =>
        let response := set_database "✅ Available" response in
        let response := set_database_url "✅ Configured" response in
        let response :=
          set_database_name
            (match db_name h with Some n => n | None => "✅ Connected" end)
            response in
        let response := set_connection_status "Connected" response in
        match list_collection_names h with
        | Returned collections =>
            let response := set_collections (firstn 10 collections) response in
            set_database "✅ Connected & Working" response
        | Raised e =>
            set_database
              ("⚠️  Connected but Error: " ++ substring 0 50 e)%string
              response
        end
    | None => set_database "⚠️  Available but not initialized" response
    end in
  let response :=
    set_database_url
      (if env_truthy DATABASE_URL then "✅ Set" else "❌ Not Set") response in
  set_database_name
    (if env_truthy DATABASE_NAME then "✅ Set" else "❌ Not Set") response.

(** ** Match links (main.py, lines 145-155) *)

Record MatchLink : Type := mkMatchLink {
  url : string
}.

Section MatchLinks.

(** The state of the store, and [create_document("matchlink", {"url": u})]
    as a step on it that returns the new identifier or raises; database.py
    is not among the sources at hand, so the step is left open. *)
Variable store : Type.
Variable create_matchlink : string -> store -> py_outcome string * store.

(** [ingest_match_link]: the answer is the pair of the "status" and "url"
    keys. *)
Definition ingest_match_link (link : MatchLink) (s : store)
  : py_outcome (string * string) * store :=
  let '(outcome, s') := create_matchlink (url link) s in
  match outcome with
  | Returned _ => (Returned ("received", url link), s')
  | Raised _ => (* except Exception: pass *)
      (Returned ("received", url link), s')
  end.

End MatchLinks.

(** ** Video upload (main.py, lines 159-168) *)

(** [file.file.read(n)] on the bytes not read yet: at most [n] of them,
    and the bytes left. *)
Definition file_read (n : nat) (rest : list Byte.byte)
  : list Byte.byte * list Byte.byte :=
  (firstn n rest, skipn n rest).

(** Lines 163-167: the loop, from the running [size] and the unread bytes
    to the final [size] and the unread bytes. *)
Equations? read_all (n : nat) (rest : list Byte.byte) (size : Z)
  : Z * list Byte.byte by wf (List.length rest) lt :=
read_all n rest size with Equations.Prop.Logic.inspect (fst (file_read n rest)) := {
  | exist _ [] _ => (size, snd (file_read n rest))
  | exist _ (b :: chunk) _ =>
      read_all n (snd (file_read n rest))
               (size + Z.of_nat (List.length (b :: chunk))) }.
Proof.
  cbn [file_read fst snd] in *. rewrite length_skipn.
  destruct n; [discriminate |]. destruct rest; [discriminate |].
  cbn [List.length]. lia.
Qed.

(** [UploadFile]: the name given by the client and the unread bytes of the
    underlying file. *)
Record UploadFile : Type := mkUploadFile {
  filename : option string;
  file : list Byte.byte
}.

Record upload_response : Type := mkUploadResponse {
  up_status : string;
  up_filename : option string;
  up_size : Z;
  up_match_id : option string
}.

(** [upload_video]: the answer and the bytes left unread. *)
Definition upload_video (f : UploadFile) (match_id : option string)
  : upload_response * list Byte.byte :=
  let '(size, rest) := read_all (1024 * 1024) (file f) 0 in
  ({| up_status := "stored-temp";
      up_filename := filename f;
      up_size := size;
      up_match_id := match_id |}, rest).

(** * Properties *)

(** ** The logistic function *)

Section Logistic.

Lemma logistic_den_pos (x : R) : 0 < 1 + exp (- x).
Proof. pose proof (exp_pos (- x)); lra. Qed.

Lemma logistic_pos (x : R) : 0 < logistic x.
Proof.
  unfold logistic. apply Rdiv_lt_0_compat; [lra | apply logistic_den_pos].
Qed.

Lemma logistic_lt_1 (x : R) : logistic x < 1.
Proof.
  unfold logistic. pose proof (exp_pos (- x)) as He.
  apply Rmult_lt_reg_r with (1 + exp (- x)); [lra |].
  unfold Rdiv. rewrite Rmult_assoc, Rinv_l by lra. lra.
Qed.

(** sigmoid(-x) = 1 - sigmoid(x) *)
Lemma logistic_opp (x : R) : logistic (- x) = 1 - logistic x.
Proof.
  unfold logistic. rewrite Ropp_involutive.
  pose proof (exp_pos x) as Hx. pose proof (exp_pos (- x)) as Hm.
  assert (Hprod : exp x * exp (- x) = 1).
  { rewrite <- exp_plus. replace (x + - x) with 0 by ring. apply exp_0. }
  field_simplify_eq; [nra | split; lra].
Qed.

Lemma logistic_increasing (x y : R) : x < y -> logistic x < logistic y.
Proof.
  intros Hxy. unfold logistic.
  assert (He : exp (- y) < exp (- x)) by (apply exp_increasing; lra).
  pose proof (exp_pos (- y)) as Hy.
  unfold Rdiv. rewrite !Rmult_1_l.
  apply Rinv_lt_contravar; nra.
Qed.

End Logistic.

(** ** Decimal rounding *)

Section Rounding.

Lemma round_half_even_cases (y : R) :
  let z := round_half_even y in
  (z = Int_part y /\ y - IZR (Int_part y) <= 1 / 2) \/
  (z = (Int_part y + 1)%Z /\ 1 / 2 <= y - IZR (Int_part y)).
Proof.
  unfold round_half_even; cbv zeta.
  destruct (Rlt_dec (y - IZR (Int_part y)) (1 / 2)) as [Hlt | Hge].
  - left; split; [reflexivity | lra].
  - destruct (Rlt_dec (1 / 2) (y - IZR (Int_part y))) as [Hgt | Hle].
    + right; split; [reflexivity | lra].
    + destruct (Z.even (Int_part y)).
      * left; split; [reflexivity | lra].
      * right; split; [reflexivity | lra].
Qed.

(** The rounded integer is at distance at most one half. *)
Lemma round_half_even_err (y : R) :
  - (1 / 2) <= IZR (round_half_even y) - y <= 1 / 2.
Proof.
  pose proof (base_Int_part y) as [Hlo Hhi].
  destruct (round_half_even_cases y) as [[-> H] | [-> H]].
  - lra.
  - rewrite plus_IZR. lra.
Qed.

(** An integer is its own rounding. *)
Lemma round_half_even_IZR (k : Z) : round_half_even (IZR k) = k.
Proof.
  assert (Hk : Int_part (IZR k) = k).
  { symmetry; apply Int_part_spec; lra. }
  unfold round_half_even. rewrite Hk.
  destruct (Rlt_dec (IZR k - IZR k) (1 / 2)) as [_ | Hn]; [reflexivity | lra].
Qed.

(** Rounding keeps the order. *)
Lemma round_half_even_mono (y1 y2 : R) :
  y1 <= y2 -> (round_half_even y1 <= round_half_even y2)%Z.
Proof.
  intros [Hlt | ->]; [| apply Z.le_refl].
  destruct (Z_le_gt_dec (round_half_even y1) (round_half_even y2))
    as [Hle | Hgt]; [exact Hle | exfalso].
  pose proof (round_half_even_err y1) as E1.
  pose proof (round_half_even_err y2) as E2.
  assert (Hz : (round_half_even y2 + 1 <= round_half_even y1)%Z) by lia.
  apply IZR_le in Hz. rewrite plus_IZR in Hz. lra.
Qed.

Lemma Rabs_le_bounds (a b : R) : Rabs a <= b -> - b <= a <= b.
Proof. unfold Rabs. destruct (Rcase_abs a); lra. Qed.

Lemma pow10_pos (n : nat) : 0 < 10 ^ n.
Proof. apply pow_lt; lra. Qed.

(** [round(x, n)] is within half a unit of the last kept digit. *)
Lemma py_round_err (x : R) (n : nat) :
  Rabs (py_round x n - x) <= / 2 / 10 ^ n.
Proof.
  pose proof (pow10_pos n) as Hp.
  pose proof (round_half_even_err (x * 10 ^ n)) as [Hlo Hhi].
  unfold py_round.
  replace (IZR (round_half_even (x * 10 ^ n)) / 10 ^ n - x)
    with ((IZR (round_half_even (x * 10 ^ n)) - x * 10 ^ n) / 10 ^ n)
    by (field; lra).
  unfold Rdiv at 1. rewrite Rabs_mult, (Rabs_pos_eq (/ 10 ^ n)).
  - unfold Rdiv. apply Rmult_le_compat_r.
    + left; apply Rinv_0_lt_compat; exact Hp.
    + apply Rabs_le; lra.
  - left; apply Rinv_0_lt_compat; exact Hp.
Qed.

Lemma py_round_mono (x y : R) (n : nat) :
  x <= y -> py_round x n <= py_round y n.
Proof.
  intros Hxy. pose proof (pow10_pos n) as Hp. unfold py_round, Rdiv.
  apply Rmult_le_compat_r; [left; apply Rinv_0_lt_compat; exact Hp |].
  apply IZR_le, round_half_even_mono.
  apply Rmult_le_compat_r; lra.
Qed.

(** A multiple of the unit is kept by [round]. *)
Lemma py_round_exact (k : Z) (n : nat) :
  py_round (IZR k / 10 ^ n) n = IZR k / 10 ^ n.
Proof.
  pose proof (pow10_pos n) as Hp. unfold py_round.
  replace (IZR k / 10 ^ n * 10 ^ n) with (IZR k) by (field; lra).
  rewrite round_half_even_IZR. reflexivity.
Qed.

(** Rounding is odd: [round(-x, n) = -round(x, n)]. *)
Lemma round_half_even_opp (y : R) :
  round_half_even (- y) = (- round_half_even y)%Z.
Proof.
  pose proof (round_half_even_err y) as E.
  pose proof (round_half_even_err (- y)) as E'.
  destruct (Z.eq_dec (round_half_even (- y)) (- round_half_even y))
    as [Heq | Hne]; [exact Heq | exfalso].
  (* the two candidates differ, so [y] is a tie; both picks are even *)
  set (a := round_half_even y) in *. set (b := round_half_even (- y)) in *.
  assert (Hab : (b = - a - 1 \/ b = - a + 1)%Z).
  { assert (H1 : (- a - 1 <= b)%Z).
    { apply le_IZR. rewrite minus_IZR, opp_IZR. lra. }
    assert (H2 : (b <= - a + 1)%Z).
    { apply le_IZR. rewrite plus_IZR, opp_IZR. lra. }
    lia. }
  assert (Hev : forall t, (IZR (round_half_even t) - t = 1 / 2 \/
                           IZR (round_half_even t) - t = - (1 / 2)) ->
                          Z.even (round_half_even t) = true).
  { intros t Ht. pose proof (base_Int_part t) as [Hlo Hhi].
    unfold round_half_even in *; cbv zeta in *.
    destruct (Rlt_dec (t - IZR (Int_part t)) (1 / 2)) as [Hlt | Hge].
    - exfalso; destruct Ht; lra.
    - destruct (Rlt_dec (1 / 2) (t - IZR (Int_part t))) as [Hgt | Hle].
      + exfalso. rewrite plus_IZR in Ht. destruct Ht; lra.
      + destruct (Z.even (Int_part t)) eqn:Hpar; [exact Hpar |].
        rewrite Z.even_add, Hpar. reflexivity. }
  assert (Ha : Z.even a = true).
  { apply Hev. fold a. destruct Hab as [-> | ->];
      [rewrite minus_IZR, opp_IZR in E' | rewrite plus_IZR, opp_IZR in E'];
      lra. }
  assert (Hb : Z.even b = true).
  { apply Hev. fold b. destruct Hab as [Hb' | Hb']; rewrite Hb';
      [rewrite minus_IZR, opp_IZR | rewrite plus_IZR, opp_IZR];
      rewrite Hb' in E';
      [rewrite minus_IZR, opp_IZR in E' | rewrite plus_IZR, opp_IZR in E'];
      lra. }
  destruct Hab as [-> | ->].
  - rewrite Z.even_sub, Z.even_opp, Ha in Hb. discriminate.
  - rewrite Z.even_add, Z.even_opp, Ha in Hb. discriminate.
Qed.

End Rounding.

(** ** The predictor: ranges and normalisation *)

Section Predictor.

Variable req : PredictionRequest.
Variable ed : R.

Lemma closeness_range : 0 < closeness_of ed <= 1.
Proof.
  unfold closeness_of. split; [apply exp_pos |].
  rewrite <- exp_0. pose proof (Rabs_pos ed) as Ha.
  destruct (Req_dec (Rabs ed) 0) as [-> | Hne].
  - right. f_equal. lra.
  - left. apply exp_increasing. lra.
Qed.

Lemma late_draw_boost_range :
  1 / 10 < late_draw_boost_of req < 3 / 10.
Proof.
  unfold late_draw_boost_of.
  pose proof (logistic_pos (IZR (minute req - 60) * (5 / 100))).
  pose proof (logistic_lt_1 (IZR (minute req - 60) * (5 / 100))).
  lra.
Qed.

Lemma draw_prob_product :
  draw_prob ed req = closeness_of ed * late_draw_boost_of req.
Proof.
  unfold draw_prob.
  pose proof closeness_range as [Hc0 Hc1].
  pose proof late_draw_boost_range as [Hb0 Hb1].
  apply Rmin_right. nra.
Qed.

Lemma draw_prob_range : 0 < draw_prob ed req < 3 / 10.
Proof.
  rewrite draw_prob_product.
  pose proof closeness_range as [Hc0 Hc1].
  pose proof late_draw_boost_range as [Hb0 Hb1].
  split; nra.
Qed.

Lemma total_unnormalized : total_of (unnormalized ed req) = 1.
Proof. unfold total_of, unnormalized. ring. Qed.

End Predictor.

Lemma request_eff_diff_eq (db : database) (req : PredictionRequest) :
  request_eff_diff db req =
  eff_diff (fst (fetch_ratings db req)) (snd (fetch_ratings db req)) req.
Proof.
  unfold request_eff_diff. destruct (fetch_ratings db req); reflexivity.
Qed.

(** ** The handler at the real numbers *)

Section RealHandler.

Variables rh ra : R.
Variable req : PredictionRequest.

Lemma EXP_MAX_bounds : 709 < EXP_MAX < 710.
Proof. unfold EXP_MAX. simpl pow. lra. Qed.

Lemma logistic_with_R (x : R) :
  logistic_with R_arith x =
  if Rlt_dec EXP_MAX (- x) then Raise OverflowError
  else Return (logistic x).
Proof.
  unfold logistic_with, and_then. cbn [R_arith math_exp neg].
  unfold exp_checked.
  destruct (Rlt_dec EXP_MAX (- x)); [reflexivity |].
  apply (f_equal (@inl R py_exception)).
  cbn [R_arith div add lit]. unfold logistic.
  pose proof (exp_pos (- x)). simpl pow. field. lra.
Qed.

Lemma rating_diff_with_R :
  rating_diff_with R_arith rh ra req = rating_diff rh ra req.
Proof.
  unfold rating_diff_with, rating_diff, HOME_ADVANTAGE, GOAL_VALUE.
  cbn [R_arith add sub mul of_int lit].
  destruct (negb (is_neutral req)); simpl pow; lra.
Qed.

Lemma eff_diff_with_R :
  eff_diff_with R_arith rh ra req =
  if Rlt_dec EXP_MAX (- (IZR (minute req - 45) * MINUTE_DECAY))
  then Raise OverflowError
  else Return (eff_diff rh ra req).
Proof.
  unfold eff_diff_with. rewrite logistic_with_R, rating_diff_with_R.
  cbn [R_arith add mul of_int lit].
  replace (IZR 25 / 10 ^ 3) with MINUTE_DECAY
    by (unfold MINUTE_DECAY; simpl pow; lra).
  destruct (Rlt_dec EXP_MAX (- (IZR (minute req - 45) * MINUTE_DECAY)));
    [reflexivity |].
  unfold and_then. apply (f_equal (@inl R py_exception)).
  unfold eff_diff. simpl pow. lra.
Qed.

Lemma unnormalized_with_R (ed : R) :
  unnormalized_with R_arith ed req =
  if Rlt_dec EXP_MAX (- (ed / 400 * ln 10)) then Raise OverflowError
  else if Rlt_dec EXP_MAX (- (IZR (minute req - 60) * (5 / 100)))
       then Raise OverflowError
       else Return (unnormalized ed req).
Proof.
  unfold unnormalized_with. rewrite !logistic_with_R.
  cbn [R_arith add sub mul div neg absf minf of_int lit math_exp math_log].
  replace (ed / (IZR 4000 / 10 ^ 1) * ln 10) with (ed / 400 * ln 10)
    by (simpl pow; field).
  replace (IZR (minute req - 60) * (IZR 5 / 10 ^ 2))
    with (IZR (minute req - 60) * (5 / 100)) by (simpl pow; lra).
  destruct (Rlt_dec EXP_MAX (- (ed / 400 * ln 10))); [reflexivity |].
  cbn [and_then Return].
  unfold exp_checked.
  pose proof EXP_MAX_bounds as HM. pose proof (Rabs_pos ed) as Ha.
  destruct (Rlt_dec EXP_MAX (- Rabs ed / (IZR 2000 / 10 ^ 1))) as [Hbad | _].
  { exfalso. simpl pow in Hbad.
    assert (- Rabs ed / (2000 / (10 * 1)) <= 0).
    { replace (- Rabs ed / (2000 / (10 * 1))) with (- (Rabs ed / 200))
        by field. lra. }
    lra. }
  cbn [and_then Return].
  destruct (Rlt_dec EXP_MAX (- (IZR (minute req - 60) * (5 / 100))));
    [reflexivity |].
  cbn [and_then Return]. unfold Return, unnormalized, draw_prob.
  unfold closeness_of, late_draw_boost_of.
  replace (- Rabs ed / (IZR 2000 / 10 ^ 1)) with (- Rabs ed / 200)
    by (simpl pow; field).
  replace (IZR 10 / 10 ^ 1) with 1 by (simpl pow; lra).
  replace (IZR 1 / 10 ^ 1) with (1 / 10) by (simpl pow; lra).
  replace (IZR 2 / 10 ^ 1) with (2 / 10) by (simpl pow; lra).
  replace (IZR 55 / 10 ^ 2) with (55 / 100) by (simpl pow; lra).
  reflexivity.
Qed.

End RealHandler.

Lemma normalize_with_R (t : R * R * R) :
  normalize_with R_arith t =
  if Rle_dec (total_of t) 0 then Raise (HTTPError InvalidComputation)
  else Return (let '(ph, pd, pa) := t in
               (ph / total_of t, pd / total_of t, pa / total_of t)).
Proof.
  destruct t as [[ph pd] pa]. unfold normalize_with, total_of.
  cbn [R_arith add div le_zero].
  destruct (Rle_dec (ph + pd + pa) 0); reflexivity.
Qed.

Lemma normalize_unnormalized (ed : R) (req : PredictionRequest) :
  normalize_with R_arith (unnormalized ed req) = Return (unnormalized ed req).
Proof.
  rewrite normalize_with_R. pose proof (total_unnormalized req ed) as Ht.
  rewrite Ht. destruct (Rle_dec 1 0) as [Hle | _]; [lra |].
  destruct (unnormalized ed req) as [[ph pd] pa].
  apply (f_equal (@inl (R * R * R) py_exception)).
  repeat f_equal; field.
Qed.

Lemma exp_in_range_dec (rh ra : R) (req : PredictionRequest) :
  {exp_in_range rh ra req} + {~ exp_in_range rh ra req}.
Proof.
  unfold exp_in_range.
  destruct (Rle_dec (- (IZR (minute req - 45) * MINUTE_DECAY)) EXP_MAX);
    [| right; tauto].
  destruct (Rle_dec (- (eff_diff rh ra req / 400 * ln 10)) EXP_MAX);
    [| right; tauto].
  destruct (Rle_dec (- (IZR (minute req - 60) * (5 / 100))) EXP_MAX);
    [left; tauto | right; tauto].
Qed.

Lemma predict_core_returns (rh ra : R) (req : PredictionRequest) :
  exp_in_range rh ra req ->
  predict_core_with R_arith rh ra req =
  Return (unnormalized (eff_diff rh ra req) req, eff_diff rh ra req).
Proof.
  intros (H45 & Hed & H60). unfold predict_core_with.
  rewrite eff_diff_with_R.
  destruct (Rlt_dec EXP_MAX (- (IZR (minute req - 45) * MINUTE_DECAY)));
    [lra |].
  cbn [and_then Return]. rewrite unnormalized_with_R.
  destruct (Rlt_dec EXP_MAX (- (eff_diff rh ra req / 400 * ln 10))); [lra |].
  destruct (Rlt_dec EXP_MAX (- (IZR (minute req - 60) * (5 / 100))));
    [lra |].
  cbn [and_then Return]. rewrite normalize_unnormalized. reflexivity.
Qed.

Lemma predict_core_raises (rh ra : R) (req : PredictionRequest) :
  ~ exp_in_range rh ra req ->
  predict_core_with R_arith rh ra req = Raise OverflowError.
Proof.
  intros Hout. unfold predict_core_with. rewrite eff_diff_with_R.
  destruct (Rlt_dec EXP_MAX (- (IZR (minute req - 45) * MINUTE_DECAY)))
    as [| H45]; [reflexivity |].
  cbn [and_then Return]. rewrite unnormalized_with_R.
  destruct (Rlt_dec EXP_MAX (- (eff_diff rh ra req / 400 * ln 10)))
    as [| Hed]; [reflexivity |].
  destruct (Rlt_dec EXP_MAX (- (IZR (minute req - 60) * (5 / 100))))
    as [| H60]; [reflexivity |].
  exfalso. apply Hout. unfold exp_in_range. repeat split; lra.
Qed.

(** The rounded record built on lines 135-140. *)
Lemma predict_with_core (rh ra : R) (req : PredictionRequest) :
  predict_with R_arith rh ra req =
  match predict_core_with R_arith rh ra req with
  | inl (ph, pd, pa, ed) =>
      Return {| p_home := py_round ph 4; p_draw := py_round pd 4;
                p_away := py_round pa 4; effective_diff := py_round ed 2 |}
  | inr e => Raise e
  end.
Proof.
  unfold predict_with, and_then.
  destruct (predict_core_with R_arith rh ra req) as [[[[ph pd] pa] ed] | e];
    reflexivity.
Qed.

(** The two ways a request can go: all calls of [math.exp] in range and an
    answer, or the [OverflowError]. *)
Lemma predict_cases (db : database) (req : PredictionRequest) :
  let rh := fst (fetch_ratings db req) in
  let ra := snd (fetch_ratings db req) in
  (exp_in_range rh ra req /\
   exists ph pd pa,
     unnormalized (request_eff_diff db req) req = (ph, pd, pa) /\
     predict_unrounded db req = Return (ph, pd, pa) /\
     predict db req =
     Return {| p_home := py_round ph 4; p_draw := py_round pd 4;
               p_away := py_round pa 4;
               effective_diff := py_round (request_eff_diff db req) 2 |})
  \/
  (~ exp_in_range rh ra req /\
   predict_unrounded db req = Raise OverflowError /\
   predict db req = Raise OverflowError).
Proof.
  intros rh ra. rewrite request_eff_diff_eq. fold rh ra.
  unfold predict, predict_unrounded.
  destruct (fetch_ratings db req) as [rh' ra']. cbn [fst snd] in rh, ra.
  subst rh ra. rewrite predict_with_core.
  destruct (exp_in_range_dec rh' ra' req) as [Hin | Hout].
  - left. split; [exact Hin |].
    rewrite (predict_core_returns rh' ra' req Hin).
    destruct (unnormalized (eff_diff rh' ra' req) req) as [[ph pd] pa].
    exists ph, pd, pa. repeat split; reflexivity.
  - right. split; [exact Hout |].
    rewrite (predict_core_raises rh' ra' req Hout). split; reflexivity.
Qed.

Lemma predict_inv (db : database) (req : PredictionRequest)
      (res : PredictionResult R) :
  predict db req = Return res ->
  exp_in_range (fst (fetch_ratings db req)) (snd (fetch_ratings db req)) req
  /\
  exists ph pd pa,
    unnormalized (request_eff_diff db req) req = (ph, pd, pa) /\
    predict_unrounded db req = Return (ph, pd, pa) /\
    res = {| p_home := py_round ph 4; p_draw := py_round pd 4;
             p_away := py_round pa 4;
             effective_diff := py_round (request_eff_diff db req) 2 |}.
Proof.
  intros Hres.
  destruct (predict_cases db req)
    as [[Hin (ph & pd & pa & Hu & Hpu & Hp)] | [_ [_ Hp]]].
  - split; [exact Hin |]. exists ph, pd, pa.
    rewrite Hp in Hres. injection Hres as <-. auto.
  - rewrite Hp in Hres. discriminate.
Qed.

(** ** Bounds on the exponential, and saturation *)

Section Saturation.

Lemma exp_1_ge_2 : 2 <= exp 1.
Proof. pose proof (exp_ineq1_le 1). lra. Qed.

Lemma exp_INR_lower (n : nat) : 2 ^ n <= exp (INR n).
Proof.
  induction n as [| n IH].
  - simpl. rewrite exp_0. lra.
  - rewrite S_INR, exp_plus. simpl pow.
    pose proof exp_1_ge_2. pose proof (exp_pos (INR n)).
    assert (0 < 2 ^ n) by (apply pow_lt; lra). nra.
Qed.

Lemma ln_10_gt_2 : 2 < ln 10.
Proof.
  rewrite <- (ln_exp 2). apply ln_increasing; [apply exp_pos |].
  replace 2 with (1 + 1) by ring. rewrite exp_plus.
  pose proof exp_le_3. pose proof (exp_pos 1). nra.
Qed.



Variable req : PredictionRequest.
Variable ed : R.
Hypothesis Hbig : 3500 <= ed.


End Saturation.

Section Monotone.

Variable b : R.
Hypothesis Hb : 0 < b < 3 / 10.

Lemma closeness_nonneg_decreasing (d1 d2 : R) :
  0 <= d1 -> d1 < d2 -> closeness_of d2 < closeness_of d1.
Proof.
  intros H0 Hlt. unfold closeness_of.
  rewrite !Rabs_pos_eq by lra. apply exp_increasing. lra.
Qed.

Lemma closeness_nonpos_increasing (d1 d2 : R) :
  d2 <= 0 -> d1 < d2 -> closeness_of d1 < closeness_of d2.
Proof.
  intros H0 Hlt. unfold closeness_of.
  rewrite !Rabs_left1 by lra. apply exp_increasing. lra.
Qed.

Lemma home_share_nonneg (d1 d2 : R) :
  0 <= d1 -> d1 < d2 -> home_share b d1 < home_share b d2.
Proof.
  intros H0 Hlt. unfold home_share.
  pose proof ln_10_gt_2 as Hln.
  assert (HL : logistic (d1 / 400 * ln 10) < logistic (d2 / 400 * ln 10)).
  { apply logistic_increasing. nra. }
  pose proof (logistic_pos (d1 / 400 * ln 10)) as HL0.
  pose proof (closeness_nonneg_decreasing d1 d2 H0 Hlt) as Hc.
  pose proof (closeness_range d1) as [_ Hc1].
  pose proof (closeness_range d2) as [Hc2 _].
  assert (Hs : 1 - closeness_of d1 * b < 1 - closeness_of d2 * b) by nra.
  assert (Hp : 0 < 1 - closeness_of d2 * b) by nra.
  apply Rle_lt_trans
    with (logistic (d1 / 400 * ln 10) * (1 - closeness_of d2 * b)).
  - apply Rmult_le_compat_l; lra.
  - apply Rmult_lt_compat_r; lra.
Qed.

Lemma home_share_nonpos (d1 d2 : R) :
  d2 <= 0 -> d1 < d2 -> home_share b d1 < home_share b d2.
Proof.
  intros H0 Hlt. unfold home_share, logistic.
  pose proof ln_10_gt_2 as Hln.
  pose proof (closeness_nonpos_increasing d1 d2 H0 Hlt) as Hu.
  pose proof (closeness_range d1) as [Hu1 _].
  pose proof (closeness_range d2) as [_ Hu2].
  (* v = exp(-k d) >= 1 on this side, and v u does not increase *)
  assert (Hv : exp (- (d2 / 400 * ln 10)) < exp (- (d1 / 400 * ln 10))).
  { apply exp_increasing. nra. }
  assert (Hv2 : 1 <= exp (- (d2 / 400 * ln 10))).
  { rewrite <- exp_0. destruct H0 as [Hneg | ->].
    - left. apply exp_increasing. nra.
    - right. f_equal. lra. }
  assert (Hvu : exp (- (d2 / 400 * ln 10)) * closeness_of d2
                <= exp (- (d1 / 400 * ln 10)) * closeness_of d1).
  { unfold closeness_of. rewrite !Rabs_left1 by lra.
    rewrite <- !exp_plus. left. apply exp_increasing. nra. }
  set (v1 := exp (- (d1 / 400 * ln 10))) in *.
  set (v2 := exp (- (d2 / 400 * ln 10))) in *.
  set (u1 := closeness_of d1) in *.
  set (u2 := closeness_of d2) in *.
  assert (Ha : u2 - u1 <= v1 - v2) by nra.
  assert (Hc : u2 * v1 - u1 * v2 <= 2 * (v1 - v2)) by nra.
  assert (Hcross : (1 - u1 * b) * (1 + v2) < (1 - u2 * b) * (1 + v1)) by nra.
  assert (Hi1 : 0 < / (1 + v1)) by (apply Rinv_0_lt_compat; lra).
  assert (Hi2 : 0 < / (1 + v2)) by (apply Rinv_0_lt_compat; lra).
  apply Rmult_lt_reg_r with ((1 + v1) * (1 + v2)); [nra |].
  replace (1 / (1 + v1) * (1 - u1 * b) * ((1 + v1) * (1 + v2)))
    with ((1 - u1 * b) * (1 + v2)) by (field; lra).
  replace (1 / (1 + v2) * (1 - u2 * b) * ((1 + v1) * (1 + v2)))
    with ((1 - u2 * b) * (1 + v1)) by (field; lra).
  exact Hcross.
Qed.

(** The home share grows strictly with the effective difference. *)
Lemma home_share_increasing (d1 d2 : R) :
  d1 < d2 -> home_share b d1 < home_share b d2.
Proof.
  intros Hlt.
  destruct (Rle_dec 0 d1) as [H1 | H1]; [apply home_share_nonneg; lra |].
  destruct (Rle_dec d2 0) as [H2 | H2]; [apply home_share_nonpos; lra |].
  apply Rlt_trans with (home_share b 0).
  - apply home_share_nonpos; lra.
  - apply home_share_nonneg; lra.
Qed.

(** The away share is the home share of the opposite difference. *)
Lemma away_share_mirror (d : R) :
  (1 - logistic (d / 400 * ln 10)) * (1 - closeness_of d * b)
  = home_share b (- d).
Proof.
  unfold home_share, closeness_of. rewrite Rabs_Ropp.
  replace (- d / 400 * ln 10) with (- (d / 400 * ln 10)) by (field; lra).
  rewrite logistic_opp. reflexivity.
Qed.

End Monotone.

Lemma unnormalized_shares (ed : R) (req : PredictionRequest) :
  unnormalized ed req =
  (home_share (late_draw_boost_of req) ed,
   closeness_of ed * late_draw_boost_of req,
   home_share (late_draw_boost_of req) (- ed)).
Proof.
  rewrite <- away_share_mirror. unfold unnormalized, home_share.
  rewrite draw_prob_product. reflexivity.
Qed.



(** ** Exchanging the two sides *)

Section Symmetry.

Variable db : database.
Variable req : PredictionRequest.
Hypothesis Hneutral : is_neutral req = true.






End Symmetry.


(** ** When the handler answers *)

Lemma ln_10_lt_4 : ln 10 < 4.
Proof.
  rewrite <- (ln_exp 4). apply ln_increasing; [lra |].
  pose proof (exp_INR_lower 4) as H4.
  replace (INR 4) with 4 in H4 by (simpl; ring). simpl pow in H4. lra.
Qed.

(** From the kick-off on, and unless the away side is ahead by a very
    large margin, no call of [math.exp] overflows. *)
Lemma exp_in_range_moderate (rh ra : R) (req : PredictionRequest) :
  (0 <= minute req)%Z ->
  - 70000 <= eff_diff rh ra req ->
  exp_in_range rh ra req.
Proof.
  intros Hm Hed. pose proof EXP_MAX_bounds as HM.
  pose proof ln_10_gt_2 as Hl2. pose proof ln_10_lt_4 as Hl4.
  assert (H45 : -45 <= IZR (minute req - 45)).
  { apply IZR_le. lia. }
  assert (H60 : -60 <= IZR (minute req - 60)).
  { apply IZR_le. lia. }
  unfold exp_in_range, MINUTE_DECAY. repeat split; try lra.
  destruct (Rle_dec 0 (eff_diff rh ra req)); nra.
Qed.

(** A request used in the examples: no store, kick-off, home ground. *)
Lemma kick_off_in_range :
  exp_in_range 1500 1500
    {| home_team := "A"; away_team := "B"; home_score := 0;
       away_score := 0; minute := 0; is_neutral := false |}.
Proof.
  apply exp_in_range_moderate; [cbn; lia |].
  unfold eff_diff, rating_diff, HOME_ADVANTAGE, GOAL_VALUE.
  cbn [is_neutral negb home_score away_score minute].
  pose proof (logistic_pos (IZR (0 - 45) * MINUTE_DECAY)).
  replace (IZR (0 - 0)) with 0 by (simpl; lra). nra.
Qed.

(** ** Sum of the probabilities *)

(** C1: whenever a prediction request is answered, the three probabilities
    sum to 1 within 1e-9 before the rounding to 4 decimals, and the three
    returned, rounded probabilities sum to 1 within 1e-3. *)
Theorem C1_probabilities_sum_to_one (db : database) (req : PredictionRequest)
        (res : PredictionResult R) :
  predict db req = Return res ->
  exists ph pd pa,
    predict_unrounded db req = Return (ph, pd, pa) /\
    p_home res = py_round ph 4 /\
    p_draw res = py_round pd 4 /\
    p_away res = py_round pa 4 /\
    Rabs (ph + pd + pa - 1) <= 1 / 10 ^ 9 /\
    Rabs (p_home res + p_draw res + p_away res - 1) <= 1 / 10 ^ 3.
Proof.
  intros Hres.
  destruct (predict_inv db req res Hres)
    as (_ & ph & pd & pa & Hu & Hpu & ->).
  pose proof (total_unnormalized req (request_eff_diff db req)) as Ht.
  rewrite Hu in Ht. unfold total_of in Ht.
  exists ph, pd, pa. split; [exact Hpu |].
  cbn [p_home p_draw p_away].
  repeat (split; [reflexivity |]). split.
  - rewrite Ht. replace (1 - 1) with 0 by ring. rewrite Rabs_R0.
    left. apply Rdiv_lt_0_compat; [lra | apply pow_lt; lra].
  - pose proof (py_round_err ph 4) as Eh.
    pose proof (py_round_err pd 4) as Ed.
    pose proof (py_round_err pa 4) as Ea.
    apply Rabs_le_bounds in Eh, Ed, Ea.
    apply Rabs_le. simpl pow in *. lra.
Qed.

Lemma C1_sum_witness :
  let req := {| home_team := "A"; away_team := "B"; home_score := 0;
                away_score := 0; minute := 0; is_neutral := false |} in
  exists res,
    predict None req = Return res /\
    exists ph pd pa,
      predict_unrounded None req = Return (ph, pd, pa) /\
      p_home res = py_round ph 4 /\
      p_draw res = py_round pd 4 /\
      p_away res = py_round pa 4 /\
      Rabs (ph + pd + pa - 1) <= 1 / 10 ^ 9 /\
      Rabs (p_home res + p_draw res + p_away res - 1) <= 1 / 10 ^ 3.
Proof.
  intros req.
  destruct (predict_cases None req)
    as [[_ (ph & pd & pa & _ & _ & Hp)] | [Hout _]].
  - eexists. split; [exact Hp |].
    apply (C1_probabilities_sum_to_one None req _ Hp).
  - exfalso. apply Hout. exact kick_off_in_range.
Defined.

(** ** The diagnostic scalar *)

Section AnyArithmetic.

Variable A : arith.

(** What an answer of the handler tells about the calls before it. *)
Lemma predict_with_inv (rh ra : num A) (req : PredictionRequest)
      (res : PredictionResult (num A)) :
  predict_with A rh ra req = Return res ->
  exists ed ph pd pa,
    eff_diff_with A rh ra req = Return ed /\
    predict_core_with A rh ra req = Return (ph, pd, pa, ed) /\
    res = {| p_home := round_to A ph 4; p_draw := round_to A pd 4;
             p_away := round_to A pa 4;
             effective_diff := round_to A ed 2 |}.
Proof.
  unfold predict_with, predict_core_with, and_then.
  destruct (eff_diff_with A rh ra req) as [ed | e]; [| discriminate].
  destruct (unnormalized_with A ed req) as [t | e]; [| discriminate].
  destruct (normalize_with A t) as [[[ph pd] pa] | e]; [| discriminate].
  unfold Return. intros H. injection H as <-.
  exists ed, ph, pd, pa. auto.
Qed.

End AnyArithmetic.

(** C2: whenever the handler answers, the returned effective_diff is what
    the formula of the specification gives on the two ratings.  The
    handler and the formula are compared over any arithmetic in which
    adding the integer 0 changes nothing and the integer 1 converts to the
    literal 1.0, so that no property of exact arithmetic is used. *)
Theorem C2_effective_diff_formula (A : arith) (r_home r_away : num A)
        (req : PredictionRequest) (res : PredictionResult (num A)) :
  (forall x, add A x (of_int A 0) = x) ->
  of_int A 1 = lit A 10 1 ->
  predict_with A r_home r_away req = Return res ->
  spec_effective_diff A r_home r_away req = Return (effective_diff res).
Proof.
  intros Hzero Hone Hres.
  destruct (predict_with_inv A r_home r_away req res Hres)
    as (ed & ph & pd & pa & Hed & _ & ->).
  cbn [effective_diff]. revert Hed.
  unfold spec_effective_diff, spec_sigmoid, eff_diff_with, logistic_with,
    and_then.
  destruct (math_exp A
              (neg A (mul A (of_int A (minute req - 45)) (lit A 25 3))))
    as [e | err]; [| discriminate].
  unfold Return. intros H. injection H as <-.
  unfold rating_diff_with. rewrite Hone.
  destruct (is_neutral req); cbn [negb]; [rewrite Hzero |]; reflexivity.
Qed.

Lemma C2_effective_diff_witness :
  let req := {| home_team := "A"; away_team := "B"; home_score := 0;
                away_score := 0; minute := 0; is_neutral := false |} in
  exists res,
    predict_with R_arith 1500 1500 req = Return res /\
    spec_effective_diff R_arith 1500 1500 req = Return (effective_diff res).
Proof.
  intros req.
  assert (Hp : exists res, predict_with R_arith 1500 1500 req = Return res).
  { rewrite predict_with_core.
    rewrite (predict_core_returns 1500 1500 req kick_off_in_range).
    destruct (unnormalized (eff_diff 1500 1500 req) req) as [[ph pd] pa].
    eexists. reflexivity. }
  destruct Hp as [res Hp]. exists res. split; [exact Hp |].
  apply (C2_effective_diff_formula R_arith 1500 1500 req res).
  - intros x. cbn [R_arith add of_int]. apply Rplus_0_r.
  - cbn [R_arith of_int lit]. simpl pow. lra.
  - exact Hp.
Defined.

(** ** The draw probability *)

(** C3: whenever a prediction request is answered, the draw probability
    of line 120 is the capped product of the specification; it, its
    quotient by the sum of the three values and the returned, rounded
    p_draw are all at most 0.55. *)
Theorem C3_p_draw_capped (db : database) (req : PredictionRequest)
        (res : PredictionResult R) :
  predict db req = Return res ->
  exists uh ud ua ph pd pa,
    unnormalized (request_eff_diff db req) req = (uh, ud, ua) /\
    ud = spec_p_draw (request_eff_diff db req) req /\
    predict_unrounded db req = Return (ph, pd, pa) /\
    pd = ud / (uh + ud + ua) /\
    p_draw res = py_round pd 4 /\
    ud <= 55 / 100 /\
    pd <= 55 / 100 /\
    p_draw res <= 55 / 100.
Proof.
  intros Hres.
  destruct (predict_inv db req res Hres)
    as (_ & ph & pd & pa & Hu & Hpu & ->).
  pose proof (total_unnormalized req (request_eff_diff db req)) as Ht.
  rewrite Hu in Ht. unfold total_of in Ht.
  assert (Hpd : pd = spec_p_draw (request_eff_diff db req) req).
  { unfold unnormalized in Hu. injection Hu as _ Hd _. rewrite <- Hd.
    reflexivity. }
  assert (Hle : pd <= 55 / 100).
  { rewrite Hpd. unfold spec_p_draw. apply Rmin_l. }
  exists ph, pd, pa, ph, pd, pa.
  split; [exact Hu |]. split; [exact Hpd |]. split; [exact Hpu |].
  split; [rewrite Ht; field |].
  cbn [p_draw]. repeat split; auto.
  replace (55 / 100) with (IZR 5500 / 10 ^ 4) by (simpl pow; lra).
  rewrite <- (py_round_exact 5500 4). apply py_round_mono.
  simpl pow. lra.
Qed.

Lemma C3_p_draw_witness :
  let req := {| home_team := "A"; away_team := "B"; home_score := 0;
                away_score := 0; minute := 0; is_neutral := false |} in
  exists res,
    predict None req = Return res /\
    exists uh ud ua ph pd pa,
      unnormalized (request_eff_diff None req) req = (uh, ud, ua) /\
      ud = spec_p_draw (request_eff_diff None req) req /\
      predict_unrounded None req = Return (ph, pd, pa) /\
      pd = ud / (uh + ud + ua) /\
      p_draw res = py_round pd 4 /\
      ud <= 55 / 100 /\
      pd <= 55 / 100 /\
      p_draw res <= 55 / 100.
Proof.
  intros req.
  destruct (predict_cases None req)
    as [[_ (ph & pd & pa & _ & _ & Hp)] | [Hout _]].
  - eexists. split; [exact Hp |].
    apply (C3_p_draw_capped None req _ Hp).
  - exfalso. apply Hout. exact kick_off_in_range.
Defined.

(** ** The defensive guard and the range error *)

Lemma normalize_with_guard (t : R * R * R) :
  normalize_with R_arith t = Raise (HTTPError InvalidComputation) <->
  total_of t <= 0.
Proof.
  rewrite normalize_with_R.
  destruct (Rle_dec (total_of t) 0) as [Hle | Hgt].
  - split; [intros _; exact Hle | reflexivity].
  - split; [discriminate | intros H; contradiction].
Qed.

(** The handler never takes the branch of line 130. *)
Lemma predict_never_invalid (db : database) (req : PredictionRequest) :
  predict db req <> Raise (HTTPError InvalidComputation).
Proof.
  destruct (predict_cases db req)
    as [[_ (ph & pd & pa & _ & _ & Hp)] | [_ [_ Hp]]];
    rewrite Hp; discriminate.
Qed.

(** An away side 5000 goals ahead on neutral ground, no store: line 114
    calls [math.exp] on more than 875. *)
Lemma away_rout_out_of_range :
  ~ exp_in_range 1500 1500
      {| home_team := "A"; away_team := "B"; home_score := 0;
         away_score := 5000; minute := 0; is_neutral := true |}.
Proof.
  unfold exp_in_range. intros (_ & Hed & _). revert Hed.
  unfold eff_diff, rating_diff, GOAL_VALUE.
  cbn [is_neutral negb home_score away_score minute].
  pose proof (logistic_pos (IZR (0 - 45) * MINUTE_DECAY)) as Hl.
  pose proof ln_10_gt_2 as Hln. pose proof EXP_MAX_bounds as HM.
  replace (IZR (0 - 5000)) with (- 5000) by (simpl; lra).
  set (m := 7 / 10 + 6 / 10 * logistic (IZR (0 - 45) * MINUTE_DECAY)) in *.
  assert (Hm : 7 / 10 < m) by (unfold m; lra).
  intros Hed.
  assert (H1 : 175000 < - ((1500 - 1500 + - 5000 * 50) * m)) by nra.
  assert (H2 : 875 < - ((1500 - 1500 + - 5000 * 50) * m / 400 * ln 10))
    by nra.
  lra.
Qed.

Lemma away_rout_overflows :
  predict None
    {| home_team := "A"; away_team := "B"; home_score := 0;
       away_score := 5000; minute := 0; is_neutral := true |}
  = Raise OverflowError.
Proof.
  destruct (predict_cases None
              {| home_team := "A"; away_team := "B"; home_score := 0;
                 away_score := 5000; minute := 0; is_neutral := true |})
    as [[Hin _] | [_ [_ Hp]]].
  - exfalso. exact (away_rout_out_of_range Hin).
  - exact Hp.
Qed.

(** C9: the guard of lines 129-130 raises the 400 error exactly when the
    sum is not positive, and the handler never reaches that branch; but
    the handler does fail on some requests: with no store, on neutral
    ground, at 0-5000 in minute 0 it raises [OverflowError] on line 114,
    which is not the 400 error. *)
Theorem C9_overflow_is_not_the_guard :
  predict None
    {| home_team := "A"; away_team := "B"; home_score := 0;
       away_score := 5000; minute := 0; is_neutral := true |}
  = Raise OverflowError /\
  (forall t : R * R * R,
      normalize_with R_arith t = Raise (HTTPError InvalidComputation) <->
      total_of t <= 0) /\
  status_code_of InvalidComputation = 400%Z /\
  (forall (db : database) (req : PredictionRequest),
      predict db req <> Raise (HTTPError InvalidComputation)).
Proof.
  split; [exact away_rout_overflows |].
  split; [exact normalize_with_guard |].
  split; [reflexivity | exact predict_never_invalid].
Qed.

(** ** Rating accessor *)

Section Accessor.

Variable team : TeamRating.

Lemma find_one_none (name : string) (c : collection) :
  find_one name c = None <->
  (forall d, In d c -> doc_team_name d <> name).
Proof.
  unfold find_one. split.
  - intros Hf d Hin Heq.
    pose proof (find_none _ _ Hf d Hin) as Hb. cbv beta in Hb.
    rewrite Heq, String.eqb_refl in Hb. discriminate.
  - intros Hall. induction c as [| d c' IH]; [reflexivity |].
    cbn [find].
    destruct (String.eqb (doc_team_name d) name) eqn:Hb.
    + apply String.eqb_eq in Hb. exfalso. apply (Hall d); [left |]; auto.
    + apply IH. intros d' Hin. apply Hall. right; exact Hin.
Qed.

Lemma find_one_update_one (c : collection) (e : document) :
  find_one (team_name team) c = Some e ->
  exists d, find_one (team_name team) (update_one (doc_id e) team c)
            = Some (set_fields team d).
Proof.
  unfold find_one. induction c as [| d c' IH]; [discriminate |].
  cbn [find update_one]. intros Hf.
  destruct (Nat.eqb (doc_id d) (doc_id e)) eqn:Hid.
  - exists d. cbn [find set_fields doc_team_name].
    rewrite String.eqb_refl. reflexivity.
  - destruct (String.eqb (doc_team_name d) (team_name team)) eqn:Hname.
    + injection Hf as ->. rewrite Nat.eqb_refl in Hid. discriminate.
    + cbn [find]. rewrite Hname. apply IH; exact Hf.
Qed.

Lemma find_one_append (c : collection) (i : nat) :
  exists d,
    find_one (team_name team)
             (c ++ [ {| doc_id := i; doc_team_name := team_name team;
                        doc_rating := Some (rating team) |} ]) = Some d.
Proof.
  unfold find_one. induction c as [| d c' IH]; cbn [app find].
  - cbn [doc_team_name]. rewrite String.eqb_refl. eauto.
  - destruct (String.eqb (doc_team_name d) (team_name team)); eauto.
Qed.

Lemma find_one_create_document (c : collection) :
  exists d, find_one (team_name team) (create_document team c) = Some d.
Proof. unfold create_document. apply find_one_append. Qed.

(** After an upsert the store holds a document for the team. *)
Lemma upsert_then_found (c : collection) :
  exists c' d,
    snd (upsert_team_rating (Some c) team) = Some c' /\
    find_one (team_name team) c' = Some d.
Proof.
  unfold upsert_team_rating.
  destruct (find_one (team_name team) c) as [e |] eqn:Hf; cbn [snd].
  - destruct (find_one_update_one c e Hf) as [d Hd]. eauto.
  - destruct (find_one_create_document c) as [d Hd]. eauto.
Qed.

Lemma upsert_repeatedly_found (n : nat) (c : collection) (e : document) :
  find_one (team_name team) c = Some e ->
  upsert_repeatedly n (Some c) team = repeat (Ok "updated") n.
Proof.
  revert c e. induction n as [| n IH]; intros c e Hf; [reflexivity |].
  cbn [upsert_repeatedly repeat]. unfold upsert_team_rating. rewrite Hf.
  destruct (find_one_update_one c e Hf) as [d Hd].
  f_equal. apply (IH _ (set_fields team d)). exact Hd.
Qed.

Lemma find_one_append_new (c : collection) (i : nat) :
  find_one (team_name team) c = None ->
  find_one (team_name team)
           (c ++ [ {| doc_id := i; doc_team_name := team_name team;
                      doc_rating := Some (rating team) |} ])
  = Some {| doc_id := i; doc_team_name := team_name team;
            doc_rating := Some (rating team) |}.
Proof.
  unfold find_one. induction c as [| d c' IH]; cbn [app find].
  - intros _. cbn [doc_team_name]. rewrite String.eqb_refl. reflexivity.
  - destruct (String.eqb (doc_team_name d) (team_name team));
      [discriminate | exact IH].
Qed.

(** After an upsert a lookup answers the rating just written. *)
Lemma upsert_then_get (c : collection) :
  get_team_rating (snd (upsert_team_rating (Some c) team)) (team_name team)
  = Ok (team_name team, rating team).
Proof.
  unfold upsert_team_rating.
  destruct (find_one (team_name team) c) as [e |] eqn:Hf; cbn [snd].
  - destruct (find_one_update_one c e Hf) as [d Hd].
    unfold get_team_rating. rewrite Hd. reflexivity.
  - unfold get_team_rating, create_document.
    rewrite (find_one_append_new c _ Hf). reflexivity.
Qed.

Lemma update_one_length (id : nat) (c : collection) :
  List.length (update_one id team c) = List.length c.
Proof.
  induction c as [| d c' IH]; [reflexivity |]. cbn [update_one].
  destruct (Nat.eqb (doc_id d) id); cbn [List.length]; congruence.
Qed.

End Accessor.

(** C6: a lookup of a team without a stored document answers the team name
    with the rating 1500.0 and does not fail, the store being configured. *)
Theorem C6_unknown_team_defaults_to_1500 (c : collection) (name : string) :
  (forall d, In d c -> doc_team_name d <> name) ->
  get_team_rating (Some c) name = Ok (name, 1500).
Proof.
  intros Habsent. apply find_one_none in Habsent.
  unfold get_team_rating. rewrite Habsent. reflexivity.
Qed.

Lemma C6_unknown_team_witness :
  get_team_rating
    (Some [ {| doc_id := 1; doc_team_name := "Ajax";
               doc_rating := Some 1620 |} ]) "Benfica"
  = Ok ("Benfica", 1500).
Proof.
  apply C6_unknown_team_defaults_to_1500.
  intros d [<- | []]. cbn. discriminate.
Defined.

(** C7: upsert answers "created" exactly when no document carries the team
    name beforehand and "updated" otherwise; an update keeps the number of
    documents, and a lookup afterwards answers the rating just written;
    every further upsert with the same body answers "updated". *)
Theorem C7_upsert_status (c : collection) (team : TeamRating) (n : nat) :
  fst (upsert_team_rating (Some c) team) =
    Ok (match find_one (team_name team) c with
        | Some _ => "updated"
        | None => "created"
        end) /\
  (fst (upsert_team_rating (Some c) team) = Ok "created" <->
   (forall d, In d c -> doc_team_name d <> team_name team)) /\
  (fst (upsert_team_rating (Some c) team) = Ok "updated" <->
   (exists d, In d c /\ doc_team_name d = team_name team)) /\
  (fst (upsert_team_rating (Some c) team) = Ok "updated" <->
   option_map (@List.length document) (snd (upsert_team_rating (Some c) team))
   = Some (List.length c)) /\
  get_team_rating (snd (upsert_team_rating (Some c) team)) (team_name team)
    = Ok (team_name team, rating team) /\
  tl (upsert_repeatedly (S n) (Some c) team) = repeat (Ok "updated") n.
Proof.
  pose proof (find_one_none (team_name team) c) as Hnone.
  pose proof (upsert_then_get team c) as Hget.
  pose proof (upsert_then_found team c) as (c' & d & Hc' & Hd).
  cbn [upsert_repeatedly tl].
  destruct (upsert_team_rating (Some c) team) as [answer db'] eqn:Hup.
  cbn [fst snd tl] in *. subst db'.
  split; [| split; [| split; [| split; [| split; [exact Hget |]]]]].
  - unfold upsert_team_rating in Hup.
    destruct (find_one (team_name team) c); injection Hup as <- _;
      reflexivity.
  - unfold upsert_team_rating in Hup. rewrite <- Hnone.
    destruct (find_one (team_name team) c); injection Hup as <- _.
    + split; discriminate.
    + split; reflexivity.
  - unfold upsert_team_rating in Hup.
    destruct (find_one (team_name team) c) as [e |] eqn:Hf;
      injection Hup as <- _.
    + split; [intros _ | reflexivity].
      exists e. unfold find_one in Hf. apply find_some in Hf.
      destruct Hf as [Hin Hb]. apply String.eqb_eq in Hb. auto.
    + split; [discriminate |]. intros (d0 & Hin & Heq).
      exfalso. destruct Hnone as [Hn _]. apply (Hn eq_refl d0 Hin Heq).
  - unfold upsert_team_rating in Hup.
    destruct (find_one (team_name team) c) as [e |] eqn:Hf;
      injection Hup as <- <-; cbn [option_map].
    + rewrite update_one_length. split; reflexivity.
    + unfold create_document. rewrite length_app. cbn [List.length].
      split; [discriminate |]. intros H. injection H as H. lia.
  - apply (upsert_repeatedly_found team n c' d Hd).
Qed.

(** ** Store availability *)

(** C8, as stated, fails: without a configured store a prediction request
    does not raise the store failure, it answers on the default
    ratings. *)
Lemma C8_predict_answers_without_store :
  let req := {| home_team := "A"; away_team := "B"; home_score := 0;
                away_score := 0; minute := 0; is_neutral := false |} in
  fetch_ratings None req = (1500, 1500) /\
  predict None req <> Raise (HTTPError StoreUnavailable) /\
  exists res, predict None req = Return res.
Proof.
  intros req. split; [reflexivity |].
  destruct (predict_cases None req)
    as [[_ (ph & pd & pa & _ & _ & Hp)] | [Hout _]].
  - rewrite Hp. split; [discriminate | eauto].
  - exfalso. apply Hout. exact kick_off_in_range.
Qed.

(** C8, amended: upsert and rating lookup check the store first and raise
    the 500 failure, which differs from the 400 computation failure, and
    upsert leaves the handle as it is; a prediction request makes no such
    check: without a store it takes 1500.0 for both ratings and never
    raises the store failure. *)
Theorem C8_store_availability :
  (forall team : TeamRating,
      upsert_team_rating None team = (raise StoreUnavailable, None)) /\
  (forall name : string,
      get_team_rating None name = raise StoreUnavailable) /\
  status_code_of StoreUnavailable = 500%Z /\
  status_code_of InvalidComputation = 400%Z /\
  StoreUnavailable <> InvalidComputation /\
  (forall req : PredictionRequest,
      fetch_ratings None req = (1500, 1500) /\
      request_eff_diff None req = eff_diff 1500 1500 req /\
      predict None req <> Raise (HTTPError StoreUnavailable)).
Proof.
  repeat split; try reflexivity; try discriminate.
  destruct (predict_cases None req)
    as [[_ (ph & pd & pa & _ & _ & Hp)] | [_ [_ Hp]]];
    rewrite Hp; discriminate.
Qed.

(** ** Symmetry on neutral ground *)


(** ** Dependence on the score *)


Lemma fetch_ratings_with_score (db : database) (req : PredictionRequest)
      (hs aw : Z) :
  fetch_ratings db (with_score req hs aw) = fetch_ratings db req.
Proof. unfold fetch_ratings. destruct db; reflexivity. Qed.


(** * Further properties of the handlers *)

(** ** The rating accessor as a map from team names to ratings *)

Section AccessorMap.

Variable team : TeamRating.

Lemma fresh_id_above (c : collection) (d : document) :
  In d c -> (doc_id d < fresh_id c)%nat.
Proof.
  unfold fresh_id. induction c as [| x c' IH]; [intros [] |].
  cbn [fold_right]. intros [<- | Hin]; [lia |].
  specialize (IH Hin). lia.
Qed.

Lemma update_one_ids (i : nat) (c : collection) :
  map doc_id (update_one i team c) = map doc_id c.
Proof.
  induction c as [| d c' IH]; [reflexivity |]. cbn [update_one].
  destruct (Nat.eqb (doc_id d) i); cbn [map set_fields doc_id]; congruence.
Qed.

Lemma create_document_ids (c : collection) :
  map doc_id (create_document team c) = map doc_id c ++ [fresh_id c].
Proof. unfold create_document. rewrite map_app. reflexivity. Qed.

Lemma ids_unique_step (c : collection) :
  ids_unique c ->
  exists c', snd (upsert_team_rating (Some c) team) = Some c' /\
             ids_unique c'.
Proof.
  unfold ids_unique, upsert_team_rating. intros Hu.
  destruct (find_one (team_name team) c) as [e |]; cbn [snd];
    eexists; (split; [reflexivity |]).
  - rewrite update_one_ids. exact Hu.
  - rewrite create_document_ids. apply NoDup_app; [exact Hu | |].
    + constructor; [intros [] | constructor].
    + intros i Hi [<- | []]. apply in_map_iff in Hi.
      destruct Hi as (d & Hd & Hin). apply fresh_id_above in Hin. lia.
Qed.

(** With unique identifiers the document that is modified is the one that
    was found, so that searches for other names see no change. *)
Lemma find_one_update_other (c : collection) (e : document) (name : string) :
  ids_unique c -> In e c -> doc_team_name e = team_name team ->
  name <> team_name team ->
  find_one name (update_one (doc_id e) team c) = find_one name c.
Proof.
  unfold ids_unique, find_one. intros Hu Hin He Hname.
  induction c as [| d c' IH]; [reflexivity |].
  cbn [map] in Hu. apply NoDup_cons_iff in Hu. destruct Hu as [Hnotin Hu].
  cbn [update_one].
  destruct (Nat.eqb (doc_id d) (doc_id e)) eqn:Hid.
  - apply Nat.eqb_eq in Hid.
    assert (Hde : d = e).
    { destruct Hin as [Heq | Hin']; [exact Heq | exfalso].
      apply Hnotin. rewrite Hid. apply in_map. exact Hin'. }
    subst d. cbn [find set_fields doc_team_name]. rewrite He.
    assert (Hne : String.eqb (team_name team) name = false).
    { apply String.eqb_neq. congruence. }
    rewrite Hne. reflexivity.
  - cbn [find]. destruct (String.eqb (doc_team_name d) name); [reflexivity |].
    apply IH; [exact Hu |].
    destruct Hin as [Heq | Hin']; [| exact Hin'].
    subst d. rewrite Nat.eqb_refl in Hid. discriminate.
Qed.

Lemma find_one_append_other (c : collection) (i : nat) (name : string) :
  name <> team_name team ->
  find_one name
           (c ++ [ {| doc_id := i; doc_team_name := team_name team;
                      doc_rating := Some (rating team) |} ])
  = find_one name c.
Proof.
  unfold find_one. intros Hname.
  assert (Hne : String.eqb (team_name team) name = false).
  { apply String.eqb_neq. congruence. }
  induction c as [| d c' IH]; cbn [app find doc_team_name].
  - rewrite Hne. reflexivity.
  - destruct (String.eqb (doc_team_name d) name); [reflexivity | exact IH].
Qed.

Lemma find_one_found (c : collection) (name : string) (d : document) :
  find_one name c = Some d -> In d c /\ doc_team_name d = name.
Proof.
  unfold find_one. intros Hf. apply find_some in Hf.
  destruct Hf as [Hin Hb]. apply String.eqb_eq in Hb. auto.
Qed.

Lemma get_team_rating_stored (c : collection) (name : string) :
  get_team_rating (Some c) name = Ok (name, stored_rating c name).
Proof.
  unfold get_team_rating, stored_rating.
  destruct (find_one name c) as [d |] eqn:Hf; [| reflexivity].
  apply find_one_found in Hf. destruct Hf as [_ ->]. reflexivity.
Qed.

(** One upsert, seen from a lookup of any name. *)
Lemma stored_rating_step (c c' : collection) (name : string) :
  ids_unique c ->
  snd (upsert_team_rating (Some c) team) = Some c' ->
  stored_rating c' name =
  if String.eqb (team_name team) name then rating team
  else stored_rating c name.
Proof.
  intros Hu Hc'.
  destruct (String.eqb (team_name team) name) eqn:Hb.
  - apply String.eqb_eq in Hb. subst name.
    pose proof (upsert_then_get team c) as Hget. rewrite Hc' in Hget.
    rewrite get_team_rating_stored in Hget. unfold Ok in Hget.
    congruence.
  - apply String.eqb_neq in Hb.
    assert (Hname : name <> team_name team) by congruence.
    unfold upsert_team_rating in Hc'. unfold stored_rating.
    destruct (find_one (team_name team) c) as [e |] eqn:Hf;
      cbn [snd] in Hc'; injection Hc' as <-.
    + apply find_one_found in Hf. destruct Hf as [Hin He].
      rewrite (find_one_update_other c e name Hu Hin He Hname). reflexivity.
    + unfold create_document.
      rewrite (find_one_append_other c _ name Hname). reflexivity.
Qed.

End AccessorMap.

Lemma upsert_all_configured (ts : list TeamRating) (c : collection) :
  ids_unique c ->
  exists c', upsert_all ts (Some c) = Some c' /\ ids_unique c' /\
             forall name,
               stored_rating c' name =
               last_written ts name (stored_rating c name).
Proof.
  revert c. induction ts as [| t ts IH]; intros c Hu.
  - exists c. auto.
  - destruct (ids_unique_step t c Hu) as (c1 & Hc1 & Hu1).
    destruct (IH c1 Hu1) as (c' & Hc' & Hu' & Hr).
    exists c'. unfold upsert_all in *. cbn [fold_left]. rewrite Hc1.
    split; [exact Hc' |]. split; [exact Hu' |].
    intros name. rewrite Hr. unfold last_written. cbn [fold_left].
    rewrite (stored_rating_step t c c1 name Hu Hc1). reflexivity.
Qed.

Section AccessorInvariants.

Variable team : TeamRating.

Lemma update_one_names (c : collection) (e : document) :
  ids_unique c -> In e c -> doc_team_name e = team_name team ->
  map doc_team_name (update_one (doc_id e) team c) = map doc_team_name c.
Proof.
  unfold ids_unique. intros Hu Hin He.
  induction c as [| d c' IH]; [reflexivity |].
  cbn [map] in Hu. apply NoDup_cons_iff in Hu. destruct Hu as [Hnotin Hu].
  cbn [update_one].
  destruct (Nat.eqb (doc_id d) (doc_id e)) eqn:Hid.
  - apply Nat.eqb_eq in Hid.
    assert (Hde : d = e).
    { destruct Hin as [Heq | Hin']; [exact Heq | exfalso].
      apply Hnotin. rewrite Hid. apply in_map. exact Hin'. }
    subst d. cbn [map set_fields doc_team_name]. congruence.
  - cbn [map]. f_equal. apply IH; [exact Hu |].
    destruct Hin as [Heq | Hin']; [| exact Hin'].
    subst d. rewrite Nat.eqb_refl in Hid. discriminate.
Qed.

Lemma names_unique_step (c c' : collection) :
  ids_unique c -> names_unique c ->
  snd (upsert_team_rating (Some c) team) = Some c' ->
  names_unique c'.
Proof.
  unfold names_unique, upsert_team_rating. intros Hu Hn Hc'.
  destruct (find_one (team_name team) c) as [e |] eqn:Hf;
    cbn [snd] in Hc'; injection Hc' as <-.
  - apply find_one_found in Hf. destruct Hf as [Hin He].
    rewrite (update_one_names c e Hu Hin He). exact Hn.
  - unfold create_document. rewrite map_app. cbn [map doc_team_name].
    apply NoDup_app; [exact Hn | |].
    + constructor; [intros [] | constructor].
    + intros name Hi [<- | []]. apply in_map_iff in Hi.
      destruct Hi as (d & Hd & Hin).
      apply (proj1 (find_one_none (team_name team) c) Hf d Hin Hd).
Qed.

Lemma find_one_update_one_id (c : collection) (e : document) :
  find_one (team_name team) c = Some e ->
  exists d, find_one (team_name team) (update_one (doc_id e) team c)
            = Some (set_fields team d) /\ doc_id d = doc_id e.
Proof.
  unfold find_one. induction c as [| d c' IH]; [discriminate |].
  cbn [find update_one]. intros Hf.
  destruct (Nat.eqb (doc_id d) (doc_id e)) eqn:Hid.
  - exists d. cbn [find set_fields doc_team_name].
    rewrite String.eqb_refl. apply Nat.eqb_eq in Hid. auto.
  - destruct (String.eqb (doc_team_name d) (team_name team)) eqn:Hname.
    + injection Hf as ->. rewrite Nat.eqb_refl in Hid. discriminate.
    + cbn [find]. rewrite Hname. apply IH; exact Hf.
Qed.

Lemma update_one_twice (i : nat) (c : collection) :
  update_one i team (update_one i team c) = update_one i team c.
Proof.
  induction c as [| d c' IH]; [reflexivity |]. cbn [update_one].
  destruct (Nat.eqb (doc_id d) i) eqn:Hid; cbn [update_one].
  - cbn [set_fields doc_id]. rewrite Hid. reflexivity.
  - rewrite Hid, IH. reflexivity.
Qed.

Lemma update_one_appended (c : collection) (i : nat) :
  (forall d, In d c -> doc_id d <> i) ->
  let new := {| doc_id := i; doc_team_name := team_name team;
                doc_rating := Some (rating team) |} in
  update_one i team (c ++ [new]) = c ++ [new].
Proof.
  intros Hfresh new. induction c as [| d c' IH]; cbn [app update_one].
  - cbn [new doc_id]. rewrite Nat.eqb_refl. reflexivity.
  - assert (Hd : Nat.eqb (doc_id d) i = false).
    { apply Nat.eqb_neq. apply Hfresh. left; reflexivity. }
    rewrite Hd, IH; [reflexivity |].
    intros d' Hin. apply Hfresh. right; exact Hin.
Qed.

End AccessorInvariants.

(** X1: after any sequence of upserts the lookup answers, for every team
    name, what a map from names to ratings would: the rating of the last
    upsert for that name, or what the store answered before. *)
Theorem lookup_after_upserts (ts : list TeamRating) (c : collection)
        (name : string) :
  ids_unique c ->
  get_team_rating (upsert_all ts (Some c)) name =
  Ok (name, last_written ts name (stored_rating c name)).
Proof.
  intros Hu. destruct (upsert_all_configured ts c Hu) as (c' & -> & _ & Hr).
  rewrite get_team_rating_stored, Hr. reflexivity.
Qed.

Lemma lookup_after_upserts_witness :
  get_team_rating
    (upsert_all [ {| team_name := "Ajax"; rating := 1700 |};
                  {| team_name := "Benfica"; rating := 1650 |};
                  {| team_name := "Ajax"; rating := 1710 |} ]
                (Some [])) "Ajax"
  = Ok ("Ajax",
        last_written [ {| team_name := "Ajax"; rating := 1700 |};
                       {| team_name := "Benfica"; rating := 1650 |};
                       {| team_name := "Ajax"; rating := 1710 |} ]
                     "Ajax" (stored_rating [] "Ajax")).
Proof.
  apply lookup_after_upserts. unfold ids_unique. cbn. constructor.
Defined.

(** X2: an upsert for one team leaves the lookup of every other team as it
    was. *)
Theorem upsert_leaves_other_teams (c : collection) (team : TeamRating)
        (name : string) :
  ids_unique c ->
  name <> team_name team ->
  get_team_rating (snd (upsert_team_rating (Some c) team)) name =
  get_team_rating (Some c) name.
Proof.
  intros Hu Hname.
  destruct (ids_unique_step team c Hu) as (c' & Hc' & _).
  rewrite Hc', !get_team_rating_stored.
  rewrite (stored_rating_step team c c' name Hu Hc').
  assert (Hne : String.eqb (team_name team) name = false).
  { apply String.eqb_neq. congruence. }
  rewrite Hne. reflexivity.
Qed.

Lemma upsert_leaves_other_teams_witness :
  let c := [ {| doc_id := 1; doc_team_name := "Ajax";
                doc_rating := Some 1620 |};
             {| doc_id := 2; doc_team_name := "Benfica";
                doc_rating := Some 1580 |} ] in
  let team := {| team_name := "Ajax"; rating := 1700 |} in
  get_team_rating (snd (upsert_team_rating (Some c) team)) "Benfica" =
  get_team_rating (Some c) "Benfica".
Proof.
  intros c team. apply upsert_leaves_other_teams.
  - unfold ids_unique. cbn. repeat constructor; cbn; intuition lia.
  - cbn. discriminate.
Defined.

(** X3: if no team has two documents, no sequence of upserts gives a team
    two documents. *)
Theorem upserts_keep_names_unique (ts : list TeamRating) (c : collection) :
  ids_unique c ->
  names_unique c ->
  exists c', upsert_all ts (Some c) = Some c' /\ names_unique c'.
Proof.
  revert c. induction ts as [| t ts IH]; intros c Hu Hn.
  - exists c. auto.
  - destruct (ids_unique_step t c Hu) as (c1 & Hc1 & Hu1).
    pose proof (names_unique_step t c c1 Hu Hn Hc1) as Hn1.
    destruct (IH c1 Hu1 Hn1) as (c' & Hc' & Hn').
    exists c'. unfold upsert_all in *. cbn [fold_left]. rewrite Hc1. auto.
Qed.

Lemma upserts_keep_names_unique_witness :
  exists c',
    upsert_all [ {| team_name := "Ajax"; rating := 1700 |};
                 {| team_name := "Ajax"; rating := 1710 |} ]
               (Some []) = Some c' /\
    names_unique c'.
Proof.
  apply upserts_keep_names_unique; constructor.
Defined.

(** X4: a second upsert with the same body changes nothing in the
    store. *)
Theorem upsert_twice_same_store (db : database) (team : TeamRating) :
  snd (upsert_team_rating (snd (upsert_team_rating db team)) team) =
  snd (upsert_team_rating db team).
Proof.
  destruct db as [c |]; [| reflexivity].
  unfold upsert_team_rating at 2 3.
  destruct (find_one (team_name team) c) as [e |] eqn:Hf; cbn [snd].
  - destruct (find_one_update_one_id team c e Hf) as (d & Hd & Hid).
    unfold upsert_team_rating. rewrite Hd. cbn [snd set_fields doc_id].
    rewrite Hid, update_one_twice. reflexivity.
  - unfold upsert_team_rating, create_document.
    rewrite (find_one_append_new team c _ Hf). cbn [snd doc_id].
    rewrite update_one_appended; [reflexivity |].
    intros d Hin. apply (fresh_id_above c) in Hin. lia.
Qed.

(** ** The predictor and the store *)

(** X6: the ratings a prediction uses are the ones the lookup reports for
    the two teams. *)
Theorem predict_uses_looked_up_ratings (c : collection)
        (req : PredictionRequest) :
  get_team_rating (Some c) (home_team req) =
    Ok (home_team req, fst (fetch_ratings (Some c) req)) /\
  get_team_rating (Some c) (away_team req) =
    Ok (away_team req, snd (fetch_ratings (Some c) req)).
Proof. split; apply get_team_rating_stored. Qed.

(** X7: after ratings were written for the two distinct teams of a
    request, the prediction works on exactly these two ratings. *)
Theorem predict_after_upserts (c : collection) (req : PredictionRequest)
        (rh ra : R) :
  ids_unique c ->
  home_team req <> away_team req ->
  let db := upsert_all [ {| team_name := home_team req; rating := rh |};
                         {| team_name := away_team req; rating := ra |} ]
                       (Some c) in
  fetch_ratings db req = (rh, ra) /\
  request_eff_diff db req = eff_diff rh ra req.
Proof.
  intros Hu Hne db.
  destruct (upsert_all_configured
              [ {| team_name := home_team req; rating := rh |};
                {| team_name := away_team req; rating := ra |} ] c Hu)
    as (c' & Hc' & _ & Hr).
  fold db in Hc'.
  assert (Hf : fetch_ratings db req = (rh, ra)).
  { rewrite Hc'. unfold fetch_ratings.
    fold (stored_rating c' (home_team req)).
    fold (stored_rating c' (away_team req)).
    rewrite !Hr. unfold last_written. cbn [fold_left team_name rating].
    rewrite !String.eqb_refl.
    assert (Hah : String.eqb (away_team req) (home_team req) = false).
    { apply String.eqb_neq. congruence. }
    rewrite Hah. reflexivity. }
  split; [exact Hf |].
  unfold request_eff_diff. rewrite Hf. reflexivity.
Qed.

Lemma predict_after_upserts_witness :
  let req := {| home_team := "Ajax"; away_team := "Benfica";
                home_score := 1; away_score := 0; minute := 60;
                is_neutral := false |} in
  let db := upsert_all [ {| team_name := "Ajax"; rating := 1700 |};
                         {| team_name := "Benfica"; rating := 1650 |} ]
                       (Some []) in
  fetch_ratings db req = (1700, 1650) /\
  request_eff_diff db req = eff_diff 1700 1650 req.
Proof.
  intros req. apply (predict_after_upserts [] req 1700 1650).
  - constructor.
  - cbn. discriminate.
Defined.

(** X8: when neither team of a request has a document, a configured store
    gives the same answer as no store at all. *)
Theorem predict_unknown_teams (c : collection) (req : PredictionRequest) :
  (forall d, In d c ->
             doc_team_name d <> home_team req /\
             doc_team_name d <> away_team req) ->
  predict (Some c) req = predict None req.
Proof.
  intros Habs.
  assert (Hh : find_one (home_team req) c = None).
  { apply find_one_none. intros d Hin. apply (Habs d Hin). }
  assert (Ha : find_one (away_team req) c = None).
  { apply find_one_none. intros d Hin. apply (Habs d Hin). }
  unfold predict, fetch_ratings. rewrite Hh, Ha. reflexivity.
Qed.

Lemma predict_unknown_teams_witness :
  let req := {| home_team := "A"; away_team := "B"; home_score := 0;
                away_score := 0; minute := 0; is_neutral := false |} in
  predict (Some [ {| doc_id := 1; doc_team_name := "Ajax";
                     doc_rating := Some 1620 |} ]) req
  = predict None req.
Proof.
  intros req. apply predict_unknown_teams.
  intros d [<- | []]. cbn. split; discriminate.
Defined.

(** ** Ranges of the answer *)

Lemma logistic_0 : logistic 0 = 1 / 2.
Proof. unfold logistic. rewrite Ropp_0, exp_0. lra. Qed.

Lemma home_share_range (b d : R) :
  0 < b < 3 / 10 -> 0 < home_share b d < 1.
Proof.
  intros Hb. unfold home_share.
  pose proof (logistic_pos (d / 400 * ln 10)) as HL0.
  pose proof (logistic_lt_1 (d / 400 * ln 10)) as HL1.
  pose proof (closeness_range d) as [Hc0 Hc1].
  assert (Hs : 7 / 10 < 1 - closeness_of d * b < 1) by nra.
  split; nra.
Qed.

Lemma py_round_unit_interval (x : R) :
  0 <= x <= 1 -> 0 <= py_round x 4 <= 1.
Proof.
  intros [H0 H1]. split.
  - replace 0 with (IZR 0 / 10 ^ 4) by (simpl pow; lra).
    rewrite <- (py_round_exact 0 4). apply py_round_mono. simpl pow. lra.
  - replace 1 with (IZR 10000 / 10 ^ 4) by (simpl pow; lra).
    rewrite <- (py_round_exact 10000 4). apply py_round_mono.
    simpl pow. lra.
Qed.

(** X11: whenever a prediction request is answered, the three returned
    values lie between 0 and 1, and the returned draw probability is at
    most 0.3. *)
Theorem probabilities_in_range (db : database) (req : PredictionRequest)
        (res : PredictionResult R) :
  predict db req = Return res ->
  0 <= p_home res <= 1 /\
  0 <= p_draw res <= 3 / 10 /\
  0 <= p_away res <= 1.
Proof.
  intros Hres.
  destruct (predict_inv db req res Hres)
    as (_ & ph & pd & pa & Hu & _ & ->).
  rewrite unnormalized_shares in Hu. injection Hu as <- <- <-.
  assert (Hb : 0 < late_draw_boost_of req < 3 / 10).
  { pose proof (late_draw_boost_range req). lra. }
  pose proof (home_share_range _ (request_eff_diff db req) Hb) as Hh.
  pose proof (home_share_range _ (- request_eff_diff db req) Hb) as Ha.
  pose proof (draw_prob_range req (request_eff_diff db req)) as Hd.
  rewrite draw_prob_product in Hd.
  cbn [p_home p_draw p_away].
  split; [apply py_round_unit_interval; lra |].
  split; [| apply py_round_unit_interval; lra].
  split.
  - apply py_round_unit_interval; lra.
  - replace (3 / 10) with (IZR 3000 / 10 ^ 4) by (simpl pow; lra).
    rewrite <- (py_round_exact 3000 4). apply py_round_mono.
    simpl pow. lra.
Qed.

Lemma probabilities_in_range_witness :
  let req := {| home_team := "A"; away_team := "B"; home_score := 0;
                away_score := 0; minute := 0; is_neutral := false |} in
  exists res,
    predict None req = Return res /\
    0 <= p_home res <= 1 /\
    0 <= p_draw res <= 3 / 10 /\
    0 <= p_away res <= 1.
Proof.
  intros req.
  destruct (predict_cases None req)
    as [[_ (ph & pd & pa & _ & _ & Hp)] | [Hout _]].
  - eexists. split; [exact Hp |].
    apply (probabilities_in_range None req _ Hp).
  - exfalso. apply Hout. exact kick_off_in_range.
Defined.

(** ** Which side is ahead *)

Lemma request_eff_diff_product (db : database) (req : PredictionRequest) :
  request_eff_diff db req =
  rating_diff (fst (fetch_ratings db req)) (snd (fetch_ratings db req)) req
  * (7 / 10 + 6 / 10 * logistic (IZR (minute req - 45) * MINUTE_DECAY)).
Proof. rewrite request_eff_diff_eq. reflexivity. Qed.

Lemma minute_multiplier_range (req : PredictionRequest) :
  7 / 10 < 7 / 10 + 6 / 10 * logistic (IZR (minute req - 45) * MINUTE_DECAY)
  < 13 / 10.
Proof.
  pose proof (logistic_pos (IZR (minute req - 45) * MINUTE_DECAY)).
  pose proof (logistic_lt_1 (IZR (minute req - 45) * MINUTE_DECAY)).
  lra.
Qed.

Lemma home_share_compare (b d : R) :
  0 < b < 3 / 10 ->
  (home_share b (- d) < home_share b d <-> 0 < d) /\
  (home_share b (- d) = home_share b d <-> d = 0).
Proof.
  intros Hb.
  destruct (Rtotal_order d 0) as [Hneg | [-> | Hpos]].
  - assert (H : home_share b d < home_share b (- d))
      by (apply home_share_increasing; lra).
    split; split; intros; lra.
  - rewrite Ropp_0. split; split; intros; lra.
  - assert (H : home_share b (- d) < home_share b d)
      by (apply home_share_increasing; lra).
    split; split; intros; lra.
Qed.

(** X14: whenever a prediction request is answered, the returned p_home
    is at least the returned p_away if the rating difference with home
    advantage and score is not negative, and at most the returned p_away
    if it is not positive. *)
Theorem favourite_follows_rating_diff (db : database)
        (req : PredictionRequest) (res : PredictionResult R) :
  predict db req = Return res ->
  let diff := rating_diff (fst (fetch_ratings db req))
                          (snd (fetch_ratings db req)) req in
  (0 <= diff -> p_away res <= p_home res) /\
  (diff <= 0 -> p_home res <= p_away res).
Proof.
  intros Hres diff.
  destruct (predict_inv db req res Hres)
    as (_ & ph & pd & pa & Hu & _ & ->).
  rewrite unnormalized_shares in Hu. injection Hu as <- <- <-.
  assert (Hb : 0 < late_draw_boost_of req < 3 / 10).
  { pose proof (late_draw_boost_range req). lra. }
  pose proof (request_eff_diff_product db req) as Hprod. fold diff in Hprod.
  pose proof (minute_multiplier_range req) as Hm.
  set (m := 7 / 10 + 6 / 10 * _) in *.
  set (e := request_eff_diff db req) in *.
  cbn [p_home p_away].
  split; intros Hd; apply py_round_mono.
  - assert (He : 0 <= e) by (rewrite Hprod; nra).
    destruct He as [He | <-].
    + left. apply home_share_increasing; [exact Hb | lra].
    + rewrite Ropp_0. right. reflexivity.
  - assert (He : e <= 0) by (rewrite Hprod; nra).
    destruct He as [He | ->].
    + left. apply home_share_increasing; [exact Hb | lra].
    + rewrite Ropp_0. right. reflexivity.
Qed.

Lemma favourite_follows_rating_diff_witness :
  let req := {| home_team := "A"; away_team := "B"; home_score := 0;
                away_score := 0; minute := 0; is_neutral := false |} in
  exists res,
    predict None req = Return res /\
    let diff := rating_diff (fst (fetch_ratings None req))
                            (snd (fetch_ratings None req)) req in
    (0 <= diff -> p_away res <= p_home res) /\
    (diff <= 0 -> p_home res <= p_away res).
Proof.
  intros req.
  destruct (predict_cases None req)
    as [[_ (ph & pd & pa & _ & _ & Hp)] | [Hout _]].
  - eexists. split; [exact Hp |].
    apply (favourite_follows_rating_diff None req _ Hp).
  - exfalso. apply Hout. exact kick_off_in_range.
Defined.

(** ** The minute *)

(** X15: the effective difference is the rating difference scaled by a
    factor strictly between 0.7 and 1.3, which is 1 at minute 45; so it
    has the sign of the rating difference and between 0.7 and 1.3 times
    its size. *)
Theorem effective_diff_scaling (db : database) (req : PredictionRequest) :
  let diff := rating_diff (fst (fetch_ratings db req))
                          (snd (fetch_ratings db req)) req in
  let e := request_eff_diff db req in
  7 / 10 * Rabs diff <= Rabs e <= 13 / 10 * Rabs diff /\
  (0 < e <-> 0 < diff) /\
  (e = 0 <-> diff = 0) /\
  (minute req = 45%Z -> e = diff).
Proof.
  intros diff e.
  pose proof (request_eff_diff_product db req) as Hprod.
  fold diff e in Hprod.
  pose proof (minute_multiplier_range req) as Hm.
  split; [| split; [| split]].
  - rewrite Hprod, Rabs_mult. rewrite (Rabs_pos_eq (7 / 10 + _)) by lra.
    pose proof (Rabs_pos diff). split; nra.
  - rewrite Hprod. split; intros; nra.
  - rewrite Hprod. split; intros; nra.
  - intros H45. rewrite Hprod, H45.
    replace (IZR (45 - 45) * MINUTE_DECAY) with 0 by (simpl; lra).
    rewrite logistic_0. lra.
Qed.

Lemma fetch_ratings_with_minute (db : database) (req : PredictionRequest)
      (m : Z) :
  fetch_ratings db (with_minute req m) = fetch_ratings db req.
Proof. unfold fetch_ratings. destruct db; reflexivity. Qed.

(** X16: from the kick-off on, at a later minute the same ratings, venue
    and score give an effective difference of the same sign and of a size
    that is larger or equal. *)
Theorem later_minute_larger_effective_diff (db : database)
        (req : PredictionRequest) (m1 m2 : Z) :
  (0 <= m1 < m2)%Z ->
  let e1 := request_eff_diff db (with_minute req m1) in
  let e2 := request_eff_diff db (with_minute req m2) in
  Rabs e1 <= Rabs e2 /\
  (0 < e1 <-> 0 < e2) /\
  (e1 = 0 <-> e2 = 0).
Proof.
  intros [_ Hlt] e1 e2.
  pose proof (request_eff_diff_product db (with_minute req m1)) as H1.
  pose proof (request_eff_diff_product db (with_minute req m2)) as H2.
  rewrite !fetch_ratings_with_minute in H1, H2.
  change (rating_diff _ _ (with_minute req m1))
    with (rating_diff (fst (fetch_ratings db req))
                      (snd (fetch_ratings db req)) req) in H1.
  change (rating_diff _ _ (with_minute req m2))
    with (rating_diff (fst (fetch_ratings db req))
                      (snd (fetch_ratings db req)) req) in H2.
  cbn [with_minute minute] in H1, H2. fold e1 in H1. fold e2 in H2.
  pose proof (minute_multiplier_range (with_minute req m1)) as R1.
  pose proof (minute_multiplier_range (with_minute req m2)) as R2.
  cbn [with_minute minute] in R1, R2.
  assert (HL : logistic (IZR (m1 - 45) * MINUTE_DECAY)
               < logistic (IZR (m2 - 45) * MINUTE_DECAY)).
  { apply logistic_increasing. unfold MINUTE_DECAY.
    assert (IZR (m1 - 45) < IZR (m2 - 45)) by (apply IZR_lt; lia). lra. }
  set (k1 := 7 / 10 + 6 / 10 * logistic (IZR (m1 - 45) * MINUTE_DECAY)) in *.
  set (k2 := 7 / 10 + 6 / 10 * logistic (IZR (m2 - 45) * MINUTE_DECAY)) in *.
  set (diff := rating_diff _ _ req) in *.
  assert (Hk : k1 < k2) by (unfold k1, k2; lra).
  rewrite H1, H2, !Rabs_mult, (Rabs_pos_eq k1), (Rabs_pos_eq k2) by lra.
  pose proof (Rabs_pos diff) as Hd.
  split; [nra |]. split; split; intros; nra.
Qed.

Lemma later_minute_witness :
  let req := {| home_team := "A"; away_team := "B"; home_score := 1;
                away_score := 0; minute := 0; is_neutral := true |} in
  let e1 := request_eff_diff None (with_minute req 10) in
  let e2 := request_eff_diff None (with_minute req 80) in
  Rabs e1 <= Rabs e2 /\
  (0 < e1 <-> 0 < e2) /\
  (e1 = 0 <-> e2 = 0).
Proof.
  intros req. apply (later_minute_larger_effective_diff None req 10 80). lia.
Defined.

(** ** Draws *)

Lemma closeness_0 : closeness_of 0 = 1.
Proof.
  unfold closeness_of. rewrite Rabs_R0.
  replace (- 0 / 200) with 0 by lra. apply exp_0.
Qed.

Lemma closeness_by_size (d1 d2 : R) :
  Rabs d1 <= Rabs d2 -> closeness_of d2 <= closeness_of d1.
Proof.
  intros [Hlt | Heq]; unfold closeness_of.
  - left. apply exp_increasing. lra.
  - right. rewrite Heq. reflexivity.
Qed.

(** X17: at a given minute the draw probability computed on line 120 does
    not grow with the size of the effective difference, and it is largest,
    equal to the late draw boost, at an effective difference of 0. *)
Theorem draw_less_likely_when_apart (req : PredictionRequest) (d1 d2 : R) :
  Rabs d1 <= Rabs d2 ->
  draw_prob d2 req <= draw_prob d1 req /\
  draw_prob d1 req <= draw_prob 0 req /\
  draw_prob 0 req = late_draw_boost_of req.
Proof.
  intros Hle. rewrite !draw_prob_product, closeness_0.
  pose proof (late_draw_boost_range req) as [Hb0 Hb1].
  pose proof (closeness_by_size d1 d2 Hle) as Hc.
  pose proof (closeness_range d1) as [_ Hc1].
  split; [nra |]. split; [nra | ring].
Qed.

Lemma draw_less_likely_witness :
  let req := {| home_team := "A"; away_team := "B"; home_score := 0;
                away_score := 0; minute := 70; is_neutral := true |} in
  draw_prob 120 req <= draw_prob (- 50) req /\
  draw_prob (- 50) req <= draw_prob 0 req /\
  draw_prob 0 req = late_draw_boost_of req.
Proof.
  intros req. apply draw_less_likely_when_apart.
  rewrite (Rabs_left (- 50)), (Rabs_pos_eq 120) by lra. lra.
Defined.




(** ** The score *)

(** X19: only the difference of the two scores counts: adding the same
    number of goals to both sides leaves the whole answer as it is. *)
Theorem only_goal_difference_counts (db : database) (req : PredictionRequest)
        (hs aw k : Z) :
  predict db (with_score req (hs + k) (aw + k)) =
  predict db (with_score req hs aw).
Proof.
  unfold predict. rewrite !fetch_ratings_with_score.
  destruct (fetch_ratings db req) as [rh ra].
  unfold predict_with, predict_core_with, eff_diff_with, rating_diff_with.
  cbn [with_score is_neutral home_score away_score minute].
  replace (hs + k - (aw + k))%Z with (hs - aw)%Z by ring. reflexivity.
Qed.

(** ** Video upload *)

Lemma read_all_counts (n : nat) (rest : list Byte.byte) (size : Z) :
  (0 < n)%nat ->
  read_all n rest size = ((size + Z.of_nat (List.length rest))%Z, []).
Proof.
  intros Hn. funelim (read_all n rest size).
  - cbn [file_read fst snd] in *.
    destruct n as [| n']; [lia |]. destruct rest as [| x rest'].
    + cbn. rewrite Z.add_0_r. reflexivity.
    + discriminate.
  - rewrite H by exact Hn. cbn [file_read fst snd] in *. f_equal.
    rewrite <- (firstn_skipn n rest) at 2. rewrite length_app, <- e.
    lia.
Qed.

(** X20: the upload handler reads the file to its end and answers its
    exact number of bytes as size, whatever the content, together with the
    file name and the match identifier it was given. *)
Theorem upload_video_counts_every_byte (f : UploadFile)
        (match_id : option string) :
  upload_video f match_id =
  ({| up_status := "stored-temp";
      up_filename := filename f;
      up_size := Z.of_nat (List.length (file f));
      up_match_id := match_id |}, []).
Proof.
  unfold upload_video.
  rewrite read_all_counts by (apply Nat.mul_pos_pos; lia).
  rewrite Z.add_0_l. reflexivity.
Qed.

(** ** Match links *)

(** X21: whatever the store does with the link, also when it raises, the
    handler answers "received" with the url it was given, and leaves the
    store as the attempted write left it. *)
Theorem ingest_match_link_always_received (store : Type)
        (create_matchlink : string -> store -> py_outcome string * store)
        (link : MatchLink) (s : store) :
  fst (ingest_match_link store create_matchlink link s) =
    Returned ("received", url link) /\
  snd (ingest_match_link store create_matchlink link s) =
    snd (create_matchlink (url link) s).
Proof.
  unfold ingest_match_link.
  destruct (create_matchlink (url link) s) as [[id | msg] s'];
    split; reflexivity.
Qed.

(** ** Diagnostics *)

(** X22: the diagnostic answer lists at most 10 collections: the first 10
    the store names, and none when the store is not configured or the
    listing raises. *)
Theorem test_database_collections (db : option db_handle)
        (DATABASE_URL DATABASE_NAME : option string) :
  let response := test_database db DATABASE_URL DATABASE_NAME in
  (List.length (resp_collections response) <= 10)%nat /\
  resp_collections response =
    match db with
    | Some h =>
        match list_collection_names h with
        | Returned names => firstn 10 names
        | Raised _ => []
        end
    | None => []
    end.
Proof.
  intros response. unfold response, test_database.
  destruct db as [h |]; [destruct (list_collection_names h) as [names | e] |];
    cbn [resp_collections set_database set_database_url set_database_name
         set_connection_status set_collections];
    (split; [| reflexivity]).
  - apply firstn_le_length.
  - cbn. lia.
  - cbn. lia.
Qed.

(** X23: the two keys database_url and database_name of the diagnostic
    answer depend on the environment only, not on the store: "Set" when
    the variable has a non-empty value, "Not Set" otherwise. *)
Theorem test_database_environment (db : option db_handle)
        (DATABASE_URL DATABASE_NAME : option string) :
  let response := test_database db DATABASE_URL DATABASE_NAME in
  resp_database_url response =
    Some (match DATABASE_URL with
          | None | Some EmptyString => "❌ Not Set"
          | Some _ => "✅ Set"
          end) /\
  resp_database_name response =
    Some (match DATABASE_NAME with
          | None | Some EmptyString => "❌ Not Set"
          | Some _ => "✅ Set"
          end).
Proof.
  intros response. unfold response, test_database.
  destruct db as [h |]; [destruct (list_collection_names h) as [names | e] |];
    cbn [resp_database_url resp_database_name set_database set_database_url
         set_database_name set_connection_status set_collections];
    (split; f_equal;
     [destruct DATABASE_URL as [[| a u] |] | destruct DATABASE_NAME as [[| a u] |]];
     reflexivity).
Qed.

(** X24: the diagnostic answer says "Connected" exactly when the store is
    configured, and "Connected & Working" exactly when moreover the
    listing of the collections returned. *)
Theorem test_database_status (db : option db_handle)
        (DATABASE_URL DATABASE_NAME : option string) :
  let response := test_database db DATABASE_URL DATABASE_NAME in
  resp_backend response = "✅ Running" /\
  (resp_connection_status response = "Connected" <-> db <> None) /\
  (resp_database response = "✅ Connected & Working" <->
   exists h names, db = Some h /\ list_collection_names h = Returned names).
Proof.
  intros response. unfold response, test_database.
  destruct db as [h |];
    [destruct (list_collection_names h) as [names | e] eqn:Hl |];
    cbn [resp_backend resp_database resp_connection_status set_database
         set_database_url set_database_name set_connection_status
         set_collections];
    (split; [reflexivity |]); split; split.
  - discriminate.
  - reflexivity.
  - eauto.
  - reflexivity.
  - discriminate.
  - reflexivity.
  - cbn. discriminate.
  - intros (h' & names & Hh & Hn). injection Hh as <-. congruence.
  - discriminate.
  - intros H. contradiction.
  - discriminate.
  - intros (h' & names & Hh & _). discriminate.
Qed.
